(** * pkg/logger: per-domain debug loggers

    A shallow embedding of [pkg/logger/logger.go] and a verification of its
    specification.  The package keeps a registry of domains whose logs are
    emitted at debug level, synchronised between processes through Redis.

    Layout:
    - the pieces of Go's [time] and [strings] packages and of [logrus] that
      the package calls, as small executable models;
    - calls to the outside world (clock, syslog, Redis) as a tree of calls,
      run against an arbitrary handler, with the trace of calls recorded;
    - the package's variables as a [State] record, threaded explicitly;
    - the functions of logger.go, in source order;
    - the properties. *)

From Stdlib Require Import ZArith String Ascii List Lia.
From stdpp Require Import base option gmap strings list.

Local Open Scope string_scope.
Local Open Scope Z_scope.

(** Go's [error] values only matter here through being nil or not. *)
Inductive error := Err (msg : string).

(** References to heap objects (Go pointers, maps, interface values). *)
Abbreviation loc := nat (only parsing).

(* ===================================================================== *)
(** ** Go's [time] package *)
(* ===================================================================== *)

Module time.

(** A [Duration] is an int64 count of nanoseconds.  A [Time] is an
    instant, kept as a count of nanoseconds on an unbounded line. *)
Abbreviation Duration := Z (only parsing).
Abbreviation Time := Z (only parsing).

Definition Nanosecond : Duration := 1.
Definition Microsecond : Duration := 1000 * Nanosecond.
Definition Millisecond : Duration := 1000 * Microsecond.
Definition Second : Duration := 1000 * Millisecond.
Definition Minute : Duration := 60 * Second.
Definition Hour : Duration := 60 * Minute.

(** [t.Add(d)].  Go's [Time] saturates at the ends of its range, some
    hundreds of billions of years from now; that is left out. *)
Definition Add (t : Time) (d : Duration) : Time := t + d.

(** [t.Before(u)]: strictly earlier. *)
Definition Before (t u : Time) : bool := t <? u.

Definition digit (v : Z) : ascii := ascii_of_nat (48 + Z.to_nat v).

(** [fmtFrac] writes the fraction of v/10**prec in front of [buf],
    omitting trailing zeros, and returns the remaining integer part. *)
Fixpoint fmtFrac_loop (prec : nat) (buf : string) (v : Z) (print : bool)
  : string * Z * bool :=
  match prec with
  | O => (buf, v, print)
  | S prec' =>
      let d := v mod 10 in
      let print := print || negb (d =? 0) in
      let buf := if print then String (digit d) buf else buf in
      fmtFrac_loop prec' buf (v / 10) print
  end.

Definition fmtFrac (buf : string) (v : Z) (prec : nat) : string * Z :=
  let '(buf, v, print) := fmtFrac_loop prec buf v false in
  (if print then String "." buf else buf, v).

(** [fmtInt] writes v in decimal in front of [buf]; a uint64 has at most
    twenty digits. *)
Fixpoint fmtInt_loop (fuel : nat) (buf : string) (v : Z) : string :=
  match fuel with
  | O => buf
  | S fuel' =>
      if 0 <? v then fmtInt_loop fuel' (String (digit (v mod 10)) buf) (v / 10)
      else buf
  end.

Definition fmtInt (buf : string) (v : Z) : string :=
  if v =? 0 then String "0" buf else fmtInt_loop 20 buf v.

(** The micro sign, U+00B5, is the two bytes 0xC2 0xB5 in UTF-8. *)
Definition micro : string :=
  String (ascii_of_nat 194) (String (ascii_of_nat 181) EmptyString).

(** [d.String()]: "72h3m0.5s", "1.5ms", "0s". *)
Definition Duration_String (d : Duration) : string :=
  let neg := d <? 0 in
  let u := d mod 2 ^ 64 in
  let u := if neg then (- u) mod 2 ^ 64 else u in
  if u <? Second then
    if u =? 0 then "0s"
    else
      let '(prec, buf) :=
        if u <? Microsecond then (0%nat, "ns")
        else if u <? Millisecond then (3%nat, micro +:+ "s")
        else (6%nat, "ms") in
      let '(buf, u) := fmtFrac buf u prec in
      let buf := fmtInt buf u in
      if neg then String "-" buf else buf
  else
    let '(buf, u) := fmtFrac "s" u 9 in
    let buf := fmtInt buf (u mod 60) in
    let u := u / 60 in
    let buf :=
      if 0 <? u then
        let buf := fmtInt (String "m" buf) (u mod 60) in
        let u := u / 60 in
        if 0 <? u then fmtInt (String "h" buf) u else buf
      else buf in
    if neg then String "-" buf else buf.

End time.

(* ===================================================================== *)
(** ** Go's [strings] package *)
(* ===================================================================== *)

Module gostrings.

(** [strings.Split(s, sep)] for a one-byte separator: the substrings
    between the separators, in order. *)
Fixpoint Split (s : string) (sep : ascii) : list string :=
  match s with
  | EmptyString => [EmptyString]
  | String c s' =>
      if Ascii.eqb c sep then EmptyString :: Split s' sep
      else match Split s' sep with
           | p :: ps => String c p :: ps
           | [] => [String c EmptyString]
           end
  end.

(** [strings.HasPrefix(s, prefix)] *)
Fixpoint HasPrefix (s prefix : string) : bool :=
  match prefix, s with
  | EmptyString, _ => true
  | String p prefix', String c s' => Ascii.eqb p c && HasPrefix s' prefix'
  | String _ _, EmptyString => false
  end.

(** [s[n:]] *)
Fixpoint drop (n : nat) (s : string) : string :=
  match n, s with
  | S n', String _ s' => drop n' s'
  | _, _ => s
  end.

(** [strings.TrimPrefix(s, prefix)] *)
Definition TrimPrefix (s prefix : string) : string :=
  if HasPrefix s prefix then drop (String.length prefix) s else s.

End gostrings.

(* ===================================================================== *)
(** ** logrus *)
(* ===================================================================== *)

Module logrus.

Inductive Level :=
| PanicLevel | FatalLevel | ErrorLevel | WarnLevel
| InfoLevel | DebugLevel | TraceLevel.

Global Instance Level_eq_dec : EqDecision Level.
Proof. solve_decision. Defined.

Definition Level_code (l : Level) : nat :=
  match l with
  | PanicLevel => 0 | FatalLevel => 1 | ErrorLevel => 2 | WarnLevel => 3
  | InfoLevel => 4 | DebugLevel => 5 | TraceLevel => 6
  end%nat.

Definition Level_of_code (n : nat) : option Level :=
  match n with
  | 0 => Some PanicLevel | 1 => Some FatalLevel | 2 => Some ErrorLevel
  | 3 => Some WarnLevel | 4 => Some InfoLevel | 5 => Some DebugLevel
  | 6 => Some TraceLevel | _ => None
  end%nat.

Global Instance Level_countable : Countable Level.
Proof.
  apply (inj_countable Level_code Level_of_code). by intros [].
Defined.

(** The [io.Writer] values a logger writes to. *)
Inductive Writer :=
| Stderr                 (* os.Stderr *)
| Discard                (* ioutil.Discard *)
| Sink (w : nat).        (* any other writer *)

Global Instance Writer_eq_dec : EqDecision Writer.
Proof. solve_decision. Defined.

(** A hook is an object with the levels it fires on. *)
Record Hook := mkHook { Hook_id : nat; Hook_Levels : list Level }.

Global Instance Hook_eq_dec : EqDecision Hook.
Proof. solve_decision. Defined.

(** [type LevelHooks map[Level][]Hook]: a map, hence held by reference. *)
Abbreviation LevelHooks := (gmap Level (list Hook)) (only parsing).

(** [Logger]: the fields the package reads or writes.  [Hooks] and
    [Formatter] are references. *)
Record Logger := mkLogger {
  Logger_Out : Writer;
  Logger_Hooks : loc;
  Logger_Formatter : loc;
  Logger_Level : Level
}.

Global Instance Logger_eq_dec : EqDecision Logger.
Proof. solve_decision. Defined.

(** The objects of the library that exist at some moment: loggers and
    hook maps by reference, and the next free reference.  Formatters are
    only ever compared by reference. *)
Record Heap := mkHeap {
  objs : gmap loc Logger;
  hookmaps : gmap loc LevelHooks;
  next : loc
}.

(** [std], the standard logger behind the package-level functions: the
    first object the library makes. *)
Definition std : loc := 0%nat.

(** [logrus.New()]: a logger of its own, writing to standard error with
    a new text formatter, no hooks, at info level. *)
Definition New (h : Heap) : loc * Heap :=
  let n := next h in
  let logger := {| Logger_Out := Stderr; Logger_Hooks := S n;
                   Logger_Formatter := S (S n); Logger_Level := InfoLevel |} in
  (n,
   {| objs := <[n := logger]> (objs h);
      hookmaps := <[S n := ∅]> (hookmaps h);
      next := S (S (S n)) |}).

(** Assignments to the fields of [*logger]. *)
Definition set_Level (logger : loc) (lvl : Level) (h : Heap) : Heap :=
  {| objs := alter (λ l, {| Logger_Out := Logger_Out l;
                            Logger_Hooks := Logger_Hooks l;
                            Logger_Formatter := Logger_Formatter l;
                            Logger_Level := lvl |}) logger (objs h);
     hookmaps := hookmaps h; next := next h |}.

Definition set_Out (logger : loc) (out : Writer) (h : Heap) : Heap :=
  {| objs := alter (λ l, {| Logger_Out := out;
                            Logger_Hooks := Logger_Hooks l;
                            Logger_Formatter := Logger_Formatter l;
                            Logger_Level := Logger_Level l |}) logger (objs h);
     hookmaps := hookmaps h; next := next h |}.

(** [hooks.Add(hook)]: for each level of the hook,
    [hooks[level] = append(hooks[level], hook)]. *)
Definition LevelHooks_Add (hook : Hook) (hooks : LevelHooks) : LevelHooks :=
  foldl (λ m level, <[level := (default [] (m !! level) ++ [hook])%list]> m)
        hooks (Hook_Levels hook).

(** [logger.Hooks.Add(hook)] *)
Definition Hooks_Add (logger : loc) (hook : Hook) (h : Heap) : Heap :=
  match objs h !! logger with
  | Some l =>
      {| objs := objs h;
         hookmaps := alter (LevelHooks_Add hook) (Logger_Hooks l) (hookmaps h);
         next := next h |}
  | None => h
  end.

(** [*logrus.Entry]: a logger and the fields attached to it. *)
Record Entry := mkEntry {
  Entry_Logger : loc;
  Entry_Data : gmap string string
}.

(** [logger.WithField(key, value)] *)
Definition Logger_WithField (logger : loc) (key value : string) : Entry :=
  {| Entry_Logger := logger; Entry_Data := {[ key := value ]} |}.

(** [logrus.WithField(key, value)], on the standard logger. *)
Definition WithField (key value : string) : Entry :=
  Logger_WithField std key value.

(** The library when it is loaded: [std = New()]. *)
Definition empty : Heap := {| objs := ∅; hookmaps := ∅; next := 0%nat |}.
Definition loaded : Heap := (New empty).2.

(** The hooks a logger fires, per level. *)
Definition hooks_of (logger : loc) (h : Heap) : LevelHooks :=
  match objs h !! logger with
  | Some l => default ∅ (hookmaps h !! Logger_Hooks l)
  | None => ∅
  end.

End logrus.

(* ===================================================================== *)
(** ** Calls to the outside world *)
(* ===================================================================== *)

(** [redis.Message], as delivered by a subscription. *)
Record Message := mkMessage { Channel : string; Payload : string }.

(** What the package asks of its environment: the clock, the syslog hook
    constructor (syslog.go) and the methods of [redis.UniversalClient]
    that it calls. *)
Inductive call :=
| time_Now
| syslogHook
| cli_Subscribe (channels : list string)
| cli_Publish (channel payload : string)
| cli_Set (key : string) (value : Z) (expiration : time.Duration)
| cli_Del (key : string)
| cli_Keys (pattern : string)
| cli_TTL (key : string).

(** The value each call hands back.  [.Err()] is an error or nil;
    [.Result()] and [syslogHook()] give a value or an error. *)
Definition resp (c : call) : Type :=
  match c with
  | time_Now => time.Time
  | syslogHook => logrus.Hook + error
  | cli_Subscribe _ => unit
  | cli_Publish _ _ => option error
  | cli_Set _ _ _ => option error
  | cli_Del _ => option error
  | cli_Keys _ => list string + error
  | cli_TTL _ => time.Duration + error
  end.

(** A computation: it returns, or makes a call and goes on with the
    answer. *)
Inductive prog (A : Type) : Type :=
| Ret (a : A)
| Call (c : call) (k : resp c → prog A).

Arguments Ret {A} a.
Arguments Call {A} c k.

Fixpoint pbind {A B} (p : prog A) (f : A → prog B) : prog B :=
  match p with
  | Ret a => f a
  | Call c k => Call c (λ r, pbind (k r) f)
  end.

(** An environment is a state [W] and an answer to every call. *)
Definition handler (W : Type) : Type := ∀ c : call, W → resp c * W.

(** An answer, whatever the call. *)
Inductive answer :=
| the_time (t : time.Time)
| the_hook (r : logrus.Hook + error)
| subscribed
| the_error (err : option error)
| the_keys (r : list string + error)
| the_ttl (r : time.Duration + error).

Definition answer_of (c : call) : resp c → answer :=
  match c with
  | time_Now => the_time
  | syslogHook => the_hook
  | cli_Subscribe _ => λ _, subscribed
  | cli_Publish _ _ => the_error
  | cli_Set _ _ _ => the_error
  | cli_Del _ => the_error
  | cli_Keys _ => the_keys
  | cli_TTL _ => the_ttl
  end.

(** A call with the answer it got. *)
Definition event : Type := call * answer.
Definition ev (c : call) (r : resp c) : event := (c, answer_of c r).

(** Running a computation: its result, the environment afterwards, and
    the calls made, in order, each with its answer. *)
Fixpoint exec {A W} (h : handler W) (p : prog A) (w : W) : A * W * list event :=
  match p with
  | Ret a => (a, w, [])
  | Call c k =>
      let '(r, w') := h c w in
      let '(a, w'', tr) := exec h (k r) w' in
      (a, w'', ev c r :: tr)
  end.

(** A postcondition that holds whatever the environment answers. *)
Fixpoint always {A} (p : prog A) (Q : A → Prop) : Prop :=
  match p with
  | Ret a => Q a
  | Call c k => ∀ r, always (k r) Q
  end.

(* ===================================================================== *)
(** ** The package's variables *)
(* ===================================================================== *)

(** A connected Redis client.  A process has at most one, in [opts], so
    the calls above do not say which client they are made on. *)
Inductive UniversalClient := Client (id : nat).

Record Options := mkOptions {
  Syslog : bool;
  Level : string;
  Redis : option UniversalClient
}.

Record domainEntry := mkDomainEntry {
  log : loc;
  expiredAt : option time.Time
}.

(** [opts], [loggers] and the objects of logrus.  [loggersMu] is left
    out: every function is run from start to end on its own. *)
Record State := mkState {
  opts : Options;
  loggers : gmap string domainEntry;
  heap : logrus.Heap
}.

Definition set_loggers (f : gmap string domainEntry → gmap string domainEntry)
    (s : State) : State :=
  {| opts := opts s; loggers := f (loggers s); heap := heap s |}.

Definition set_heap (f : logrus.Heap → logrus.Heap) (s : State) : State :=
  {| opts := opts s; loggers := loggers s; heap := f (heap s) |}.

(** Computations over the package's variables. *)
Definition M (A : Type) : Type := State → prog (A * State).

Definition ret {A} (a : A) : M A := λ s, Ret (a, s).

Definition bind {A B} (m : M A) (f : A → M B) : M B :=
  λ s, pbind (m s) (λ '(a, s'), f a s').

Definition get : M State := λ s, Ret (s, s).

Definition modify (f : State → State) : M unit := λ s, Ret (tt, f s).

Definition ask (c : call) : M (resp c) := λ s, Call c (λ r, Ret (r, s)).

Definition lift {A} (p : prog A) : M A := λ s, pbind p (λ a, Ret (a, s)).

Notation "'let*' x := m 'in' k" := (bind m (λ x, k))
  (at level 10, x name, m at level 100, k at level 200, only parsing).
Notation "m ;; k" := (bind m (λ _, k))
  (at level 100, k at level 200, right associativity, only parsing).

(** The outcome of running a function of the package. *)
Definition result {A W} (r : A * State * W * list event) : A := r.1.1.1.
Definition final {A W} (r : A * State * W * list event) : State := r.1.1.2.
Definition world {A W} (r : A * State * W * list event) : W := r.1.2.
Definition events {A W} (r : A * State * W * list event) : list event := r.2.
Definition trace {A W} (r : A * State * W * list event) : list call := r.2.*1.

Arguments result {A W} r /.
Arguments final {A W} r /.
Arguments world {A W} r /.
Arguments events {A W} r /.
Arguments trace {A W} r /.

(* ===================================================================== *)
(** ** logger.go *)
(* ===================================================================== *)

Definition debugRedisAddChannel : string := "add:log-debug".
Definition debugRedisRmvChannel : string := "rmv:log-debug".
Definition debugRedisPrefix : string := "debug:".

(** [loggers = make(map[string]domainEntry)] *)
Definition init (o : Options) (h : logrus.Heap) : State :=
  {| opts := o; loggers := ∅; heap := h |}.

(** [func (entry *domainEntry) Expired() bool] *)
Definition Expired (entry : domainEntry) : prog bool :=
  match expiredAt entry with
  | None => Ret false
  | Some t => Call time_Now (λ now, Ret (time.Before t now))
  end.

(** [func Clone(in *logrus.Logger) *logrus.Logger].  [None] is the panic
    of reading through a pointer that holds no logger. *)
Definition Clone (in_ : loc) (h : logrus.Heap) : option (loc * logrus.Heap) :=
  match logrus.objs h !! in_ with
  | None => None
  | Some l =>
      let n := logrus.next h in
      let out := {| logrus.Logger_Out := logrus.Logger_Out l;
                    logrus.Logger_Hooks := S n;
                    logrus.Logger_Formatter := logrus.Logger_Formatter l;
                    logrus.Logger_Level := logrus.Logger_Level l |} in
      let hooks :=
        map_fold (λ k v (m : gmap logrus.Level (list logrus.Hook)), <[k := v]> m) ∅
                 (default ∅ (logrus.hookmaps h !! logrus.Logger_Hooks l)) in
      Some (n,
            {| logrus.objs := <[n := out]> (logrus.objs h);
               logrus.hookmaps := <[S n := hooks]> (logrus.hookmaps h);
               logrus.next := S (S n) |})
  end.

(** [func publishDebug(ctx, cli, channel, domain string, ttl time.Duration) error] *)
Definition publishDebug (cli : UniversalClient) (channel domain : string)
    (ttl : time.Duration) : M (option error) :=
  let* err := ask (cli_Publish channel (domain +:+ "/" +:+ time.Duration_String ttl)) in
  match err with
  | Some e => ret (Some e)
  | None =>
      let key := debugRedisPrefix +:+ domain in
      if String.eqb channel debugRedisAddChannel
      then ask (cli_Set key 0 ttl)
      else ask (cli_Del key)
  end.

(** [func addDebugDomain(domain string, ttl time.Duration)] *)
Definition addDebugDomain (domain : string) (ttl : time.Duration) : M unit :=
  let* s := get in
  match loggers s !! domain with
  | Some _ => ret tt
  | None =>
      let* logger := (λ s, let '(l, h) := logrus.New (heap s) in
                           Ret (l, set_heap (λ _, h) s)) in
      modify (set_heap (logrus.set_Level logger logrus.DebugLevel)) ;;
      (if Syslog (opts s) then
         let* r := ask syslogHook in
         match r with
         | inl hook =>
             modify (set_heap (logrus.Hooks_Add logger hook)) ;;
             modify (set_heap (logrus.set_Out logger logrus.Discard))
         | inr _ => ret tt
         end
       else ret tt) ;;
      let* now := ask time_Now in
      let expiredAt := time.Add now ttl in
      modify (set_loggers <[domain := {| log := logger; expiredAt := Some expiredAt |}]>)
  end.

(** [func removeDebugDomain(domain string)] *)
Definition removeDebugDomain (domain : string) : M unit :=
  modify (set_loggers (delete domain)).

(** [func AddDebugDomain(domain string, ttl time.Duration) error] *)
Definition AddDebugDomain (domain : string) (ttl : time.Duration) : M (option error) :=
  let* s := get in
  match Redis (opts s) with
  | Some cli => publishDebug cli debugRedisAddChannel domain ttl
  | None => addDebugDomain domain ttl ;; ret None
  end.

(** [func RemoveDebugDomain(domain string) error] *)
Definition RemoveDebugDomain (domain : string) : M (option error) :=
  let* s := get in
  match Redis (opts s) with
  | Some cli => publishDebug cli debugRedisRmvChannel domain 0
  | None => removeDebugDomain domain ;; ret None
  end.

(** [func WithDomain(domain string) *logrus.Entry] *)
Definition WithDomain (domain : string) : M logrus.Entry :=
  let* s := get in
  match loggers s !! domain with
  | Some entry =>
      let* expired := lift (Expired entry) in
      if negb expired
      then ret (logrus.Logger_WithField (log entry) "domain" domain)
      else removeDebugDomain domain ;;
           ret (logrus.WithField "domain" domain)
  | None => ret (logrus.WithField "domain" domain)
  end.

(** The body of the loop of [subscribeLoggersDebug], for one message.
    [ParseDuration] is [time.ParseDuration], which returns a duration and
    an error; [None] is the panic of indexing an empty slice. *)
Definition receive (ParseDuration : string → time.Duration * option error)
    (msg : Message) : M (option unit) :=
  let parts := gostrings.Split (Payload msg) "/" in
  match parts !! 0%nat with
  | None => ret None
  | Some domain =>
      if String.eqb (Channel msg) debugRedisAddChannel then
        let ttl : option time.Duration :=
          if (2 <=? length parts)%nat
          then p ← parts !! 1%nat; Some (ParseDuration p).1
          else Some 0 in
        match ttl with
        | None => ret None
        | Some ttl => addDebugDomain domain ttl ;; ret (Some tt)
        end
      else if String.eqb (Channel msg) debugRedisRmvChannel then
        removeDebugDomain domain ;; ret (Some tt)
      else ret (Some tt)
  end.



(** The loop of [loadDebug] over the keys. *)
Fixpoint loadDebug_keys (keys : list string) : M unit :=
  match keys with
  | [] => ret tt
  | key :: rest =>
      let* r := ask (cli_TTL key) in
      match r with
      | inr _ => loadDebug_keys rest
      | inl ttl =>
          let domain := gostrings.TrimPrefix key debugRedisPrefix in
          addDebugDomain domain ttl ;;
          loadDebug_keys rest
      end
  end.

(** [func loadDebug(ctx, cli)] *)
Definition loadDebug (cli : UniversalClient) : M unit :=
  let* r := ask (cli_Keys (debugRedisPrefix +:+ "*")) in
  match r with
  | inr _ => ret tt
  | inl keys => loadDebug_keys keys
  end.

(** [func DebugExpiration(domain string) *time.Time] *)
Definition DebugExpiration (domain : string) : M (option time.Time) :=
  let* s := get in
  match loggers s !! domain with
  | None => ret None
  | Some entry => ret (expiredAt entry)
  end.

(** [func IsDebug(logger *logrus.Entry) bool]; [None] is the panic of
    reading through a pointer that holds no logger. *)
Definition IsDebug (logger : logrus.Entry) (h : logrus.Heap) : option bool :=
  match logrus.objs h !! logrus.Entry_Logger logger with
  | Some l => Some (bool_decide (logrus.Logger_Level l = logrus.DebugLevel))
  | None => None
  end.

(* ===================================================================== *)
(** ** States, in closed form *)
(* ===================================================================== *)

(** The logger that an activation makes at reference [n]; [syslog] is the
    hook when the syslog option is set and [syslogHook()] succeeded. *)
Definition debug_logger (n : loc) (syslog : option logrus.Hook) : logrus.Logger :=
  {| logrus.Logger_Out := match syslog with
                          | Some _ => logrus.Discard
                          | None => logrus.Stderr
                          end;
     logrus.Logger_Hooks := S n;
     logrus.Logger_Formatter := S (S n);
     logrus.Logger_Level := logrus.DebugLevel |}.

Definition debug_hooks (syslog : option logrus.Hook) : gmap logrus.Level (list logrus.Hook) :=
  match syslog with
  | Some hook => logrus.LevelHooks_Add hook ∅
  | None => ∅
  end.

(** The state once [domain], absent before, is activated until [expiry]. *)
Definition activated (s : State) (domain : string) (syslog : option logrus.Hook)
    (expiry : time.Time) : State :=
  let n := logrus.next (heap s) in
  {| opts := opts s;
     loggers := <[domain := {| log := n; expiredAt := Some expiry |}]> (loggers s);
     heap := {| logrus.objs := <[n := debug_logger n syslog]> (logrus.objs (heap s));
                logrus.hookmaps := <[S n := debug_hooks syslog]> (logrus.hookmaps (heap s));
                logrus.next := S (S (S n)) |} |}.

(** The hook of an answer of [syslogHook()]. *)
Definition hook_of (r : logrus.Hook + error) : option logrus.Hook :=
  match r with inl hook => Some hook | inr _ => None end.

(* ===================================================================== *)
(** ** Invariants *)
(* ===================================================================== *)

(** Every object lies below the next free reference, and so do the
    references it holds. *)
Definition heap_ok (h : logrus.Heap) : Prop :=
  map_Forall (λ l x, l < logrus.next h ∧ logrus.Logger_Hooks x < logrus.next h
                     ∧ logrus.Logger_Formatter x < logrus.next h)%nat (logrus.objs h)
  ∧ map_Forall (λ l _, l < logrus.next h)%nat (logrus.hookmaps h).

(** Every entry of the registry holds a logger at debug level. *)
Definition debug_entries (s : State) : Prop :=
  map_Forall (λ _ e, logrus.Logger_Level <$> logrus.objs (heap s) !! log e
                     = Some logrus.DebugLevel) (loggers s).

(** Every entry of the registry has an expiry. *)
Definition expiring (s : State) : Prop :=
  map_Forall (λ _ e, is_Some (expiredAt e)) (loggers s).

Definition inv (s : State) : Prop :=
  heap_ok (heap s) ∧ debug_entries s ∧ expiring s.

(* ===================================================================== *)
(** ** The package at work *)
(* ===================================================================== *)

(** What happens to the registry over the life of a process: calls of the
    exported functions, messages delivered to the subscription, and the
    load at start. *)
Inductive op :=
| DoAdd (domain : string) (ttl : time.Duration)
| DoRemove (domain : string)
| DoWithDomain (domain : string)
| DoExpiration (domain : string)
| DoReceive (msg : Message)
| DoLoad (cli : UniversalClient).

Definition run_op (ParseDuration : string → time.Duration * option error)
    (o : op) : M unit :=
  match o with
  | DoAdd domain ttl => AddDebugDomain domain ttl ;; ret tt
  | DoRemove domain => RemoveDebugDomain domain ;; ret tt
  | DoWithDomain domain => WithDomain domain ;; ret tt
  | DoExpiration domain => DebugExpiration domain ;; ret tt
  | DoReceive msg => receive ParseDuration msg ;; ret tt
  | DoLoad cli => loadDebug cli
  end.

Fixpoint run_ops (ParseDuration : string → time.Duration * option error)
    (ops : list op) : M unit :=
  match ops with
  | [] => ret tt
  | o :: rest => run_op ParseDuration o ;; run_ops ParseDuration rest
  end.

(* ===================================================================== *)
(** ** A scripted environment *)
(* ===================================================================== *)

(** An environment that answers from a script: a clock that is read and
    not advanced, and fixed answers for syslog and Redis. *)
Record Script := mkScript {
  clock : time.Time;
  hook_answer : logrus.Hook + error;
  publish_answer : option error;
  set_answer : option error;
  del_answer : option error;
  keys_answer : list string + error;
  ttl_answer : string → time.Duration + error
}.

Definition scripted : handler Script :=
  λ c, match c return Script → resp c * Script with
       | time_Now => λ w, (clock w, w)
       | syslogHook => λ w, (hook_answer w, w)
       | cli_Subscribe _ => λ w, (tt, w)
       | cli_Publish _ _ => λ w, (publish_answer w, w)
       | cli_Set _ _ _ => λ w, (set_answer w, w)
       | cli_Del _ => λ w, (del_answer w, w)
       | cli_Keys _ => λ w, (keys_answer w, w)
       | cli_TTL key => λ w, (ttl_answer w key, w)
       end.

(** A quiet environment at time [t]: no syslog, Redis answering without
    error and holding no key. *)
Definition quiet (t : time.Time) : Script :=
  {| clock := t; hook_answer := inr (Err "no syslog");
     publish_answer := None; set_answer := None; del_answer := None;
     keys_answer := inl []; ttl_answer := λ _, inr (Err "no such key") |}.

(** Options of a process without Redis, and with it. *)
Definition local_opts : Options :=
  {| Syslog := false; Level := "info"; Redis := None |}.
Definition redis_opts : Options :=
  {| Syslog := false; Level := "info"; Redis := Some (Client 1) |}.

(* ===================================================================== *)
(** ** Words for the properties *)
(* ===================================================================== *)

(** [hoare P m Q]: from a state in [P], whatever the environment answers,
    [m] ends with a result and a state in [Q]. *)
Definition hoare {A} (P : State → Prop) (m : M A) (Q : A → State → Prop) : Prop :=
  ∀ s, P s → always (m s) (λ r, Q r.1 r.2).

(** The clock reading that an activation of an absent domain takes: after
    the call of [syslogHook], when the syslog option is set. *)
Definition reading {W} (h : handler W) (w : W) (s : State) : time.Time :=
  (h time_Now (if Syslog (opts s) then (h syslogHook w).2 else w)).1.

(** An operation that removes the entry of [domain] from the local
    registry: a deactivation without Redis, a deactivation message for
    the domain, or [WithDomain] on the domain. *)
Definition removes (o : op) (domain : string) (s : State) : Prop :=
  match o with
  | DoRemove d => d = domain ∧ Redis (opts s) = None
  | DoWithDomain d => d = domain
  | DoReceive msg =>
      Channel msg = debugRedisRmvChannel ∧
      gostrings.Split (Payload msg) "/" !! 0%nat = Some domain
  | _ => False
  end.


(** In the specification's words: the registry holds an entry for
    [domain] that has no expiry. *)
Definition no_expiry (s : State) (domain : string) : Prop :=
  ∃ entry, loggers s !! domain = Some entry ∧ expiredAt entry = None.

(** The message and the key of an activation and of a deactivation. *)
Definition add_message (domain : string) (ttl : time.Duration) : call :=
  cli_Publish debugRedisAddChannel (domain +:+ "/" +:+ time.Duration_String ttl).
Definition rmv_message (domain : string) : call :=
  cli_Publish debugRedisRmvChannel (domain +:+ "/" +:+ time.Duration_String 0).
Definition debug_key (domain : string) : string := debugRedisPrefix +:+ domain.

(** What [receive] reads in a message: the domain, and the duration of an
    activation. *)
Definition message_domain (msg : Message) : option string :=
  gostrings.Split (Payload msg) "/" !! 0%nat.

Definition message_ttl (ParseDuration : string → time.Duration * option error)
    (msg : Message) : time.Duration :=
  match gostrings.Split (Payload msg) "/" !! 1%nat with
  | Some p => (ParseDuration p).1
  | None => 0
  end.

(** The keys whose time to live was asked, in order. *)
Definition asked_keys (l : list event) : list string :=
  omap (λ e : event, match e.1 with cli_TTL key => Some key | _ => None end) l.

(** The time to live of [key] was asked and found to be [ttl]. *)
Definition ttl_found (key : string) (ttl : time.Duration) : event :=
  ev (cli_TTL key) (inl ttl).

(* ===================================================================== *)
(** ** Sample states, environments and parsers *)
(* ===================================================================== *)

(** A process without Redis in which alice.example was activated for five
    minutes at time 1000. *)
Definition alice : string := "alice.example".

Definition alice_active : State :=
  final (exec scripted
           (AddDebugDomain alice (5 * time.Minute) (init local_opts logrus.loaded))
           (quiet 1000)).

(** The base logger of a host that writes to a file and has one hook. *)
Definition audit_hook : logrus.Hook :=
  {| logrus.Hook_id := 1; logrus.Hook_Levels := [logrus.ErrorLevel; logrus.WarnLevel] |}.

Definition configured : logrus.Heap :=
  logrus.set_Out logrus.std (logrus.Sink 7)
    (logrus.Hooks_Add logrus.std audit_hook logrus.loaded).

(** Redis refuses to publish, or to write and delete keys. *)
Definition no_publish (t : time.Time) : Script :=
  {| clock := t; hook_answer := inr (Err "no syslog");
     publish_answer := Some (Err "publish failed");
     set_answer := None; del_answer := None;
     keys_answer := inl []; ttl_answer := λ _, inr (Err "no such key") |}.
Definition no_write (t : time.Time) : Script :=
  {| clock := t; hook_answer := inr (Err "no syslog");
     publish_answer := None;
     set_answer := Some (Err "set failed"); del_answer := Some (Err "del failed");
     keys_answer := inl []; ttl_answer := λ _, inr (Err "no such key") |}.

(** A parser for durations written as whole numbers with units ("5m0s",
    "1h30m", "250ms", "0"), read as [time.ParseDuration] reads them.  It
    is used to run the receiver on messages; a duration with a decimal
    point is beyond it and is reported as an error. *)
Definition is_digit (c : ascii) : bool :=
  (48 <=? nat_of_ascii c)%nat && (nat_of_ascii c <=? 57)%nat.

Fixpoint leadingInt (s : string) (x : Z) : option (Z * string) :=
  match s with
  | String c s' =>
      if is_digit c then
        if 2 ^ 63 / 10 <? x then None
        else
          let x := x * 10 + Z.of_nat (nat_of_ascii c) - 48 in
          if 2 ^ 63 <? x then None else leadingInt s' x
      else Some (x, s)
  | EmptyString => Some (x, s)
  end.

Fixpoint leadingUnit (s : string) : string * string :=
  match s with
  | String c s' =>
      if Ascii.eqb c "." || is_digit c then (EmptyString, s)
      else let '(u, rest) := leadingUnit s' in (String c u, rest)
  | EmptyString => (EmptyString, EmptyString)
  end.

Definition unitMap (u : string) : option Z :=
  if String.eqb u "ns" then Some time.Nanosecond
  else if String.eqb u "us" then Some time.Microsecond
  else if String.eqb u (time.micro +:+ "s") then Some time.Microsecond
  else if String.eqb u "ms" then Some time.Millisecond
  else if String.eqb u "s" then Some time.Second
  else if String.eqb u "m" then Some time.Minute
  else if String.eqb u "h" then Some time.Hour
  else None.

Fixpoint whole_terms (fuel : nat) (s : string) (d : Z) : option Z :=
  match fuel with
  | O => None
  | S fuel' =>
      match s with
      | EmptyString => Some d
      | String c _ =>
          if is_digit c then
            '(v, s) ← leadingInt s 0;
            let '(u, s) := leadingUnit s in
            unit ← unitMap u;
            if 2 ^ 63 / unit <? v then None
            else
              let d := d + v * unit in
              if 2 ^ 63 <? d then None else whole_terms fuel' s d
          else None
      end
  end.

Definition ParseDuration_whole (s : string) : time.Duration * option error :=
  let invalid := (0, Some (Err "time: invalid duration")) in
  let '(neg, s) :=
    match s with
    | String c s' =>
        if Ascii.eqb c "-" then (true, s')
        else if Ascii.eqb c "+" then (false, s')
        else (false, s)
    | EmptyString => (false, s)
    end in
  if String.eqb s "0" then (0, None)
  else if String.eqb s "" then invalid
  else
    match whole_terms (S (String.length s)) s 0 with
    | None => invalid
    | Some d =>
        if neg then (- d, None)
        else if 2 ^ 63 - 1 <? d then invalid
        else (d, None)
    end.

(** Redis holds two keys with a time to live and one whose time to live
    cannot be read. *)
Definition three_keys (t : time.Time) : Script :=
  {| clock := t; hook_answer := inr (Err "no syslog");
     publish_answer := None; set_answer := None; del_answer := None;
     keys_answer := inl ["debug:alice.example"; "debug:bob.example"; "debug:carol.example"];
     ttl_answer := λ key, if String.eqb key "debug:bob.example"
                          then inr (Err "connection reset")
                          else inl (30 * time.Second) |}.

Definition no_keys (t : time.Time) : Script :=
  {| clock := t; hook_answer := inr (Err "no syslog");
     publish_answer := None; set_answer := None; del_answer := None;
     keys_answer := inr (Err "connection refused");
     ttl_answer := λ _, inl (30 * time.Second) |}.

(* ===================================================================== *)
(** ** logger.go: [Init] and [WithNamespace] *)
(* ===================================================================== *)


(** The formatters of logrus: a [*logrus.TextFormatter] with its
    [TimestampFormat], or a formatter of another type. *)
Inductive Formatter :=
| TextFormatter (TimestampFormat : string)
| OtherFormatter.

(** [time.RFC3339Nano] *)
Definition RFC3339Nano : string := "2006-01-02T15:04:05.999999999Z07:00".

(** What a [go] statement of [Init] starts. *)
Inductive goroutine :=
| go_subscribeLoggersDebug (cli : UniversalClient)
| go_loadDebug (cli : UniversalClient).

(** The package's variables, with what [Init] alone touches: the
    formatter objects, and the goroutines started so far. *)
Record Process := mkProcess {
  vars : State;
  formatters : gmap loc Formatter;
  started : list goroutine
}.

Definition set_vars (f : State → State) (p : Process) : Process :=
  {| vars := f (vars p); formatters := formatters p; started := started p |}.

Definition set_opts (o : Options) (s : State) : State :=
  {| opts := o; loggers := loggers s; heap := heap s |}.

(** The formatter of [logrus.StandardLogger()] asserted to be a pointer
    to a text formatter: its reference when it is one; [None] is the
    panic of the type assertion. *)
Definition std_TextFormatter (p : Process) : option loc :=
  l ← logrus.objs (heap (vars p)) !! logrus.std;
  f ← formatters p !! logrus.Logger_Formatter l;
  match f with
  | TextFormatter _ => Some (logrus.Logger_Formatter l)
  | OtherFormatter => None
  end.

(** The end of [Init]: the goroutines are started when there is a Redis
    client, [opts] is set, and nil is returned. *)
Definition Init_finish (opt : Options) (p : Process)
    : prog (option (option error) * Process) :=
  let p :=
    match Redis opt with
    | Some cli =>
        {| vars := vars p; formatters := formatters p;
           started := (started p ++ [go_subscribeLoggersDebug cli; go_loadDebug cli])%list |}
    | None => p
    end in
  Ret (Some None, set_vars (set_opts opt) p).

(** The level that [Init] parses: "info" when the options name none. *)
Definition level_name (opt : Options) : string :=
  if String.eqb (Level opt) "" then "info" else Level opt.

(** [func Init(opt Options) error].  [ParseLevel] is [logrus.ParseLevel]
    and [IsDevRelease] what [build.IsDevRelease()] returns.  The result is
    [None] when [Init] panics, else the error it returns. *)
Definition Init (ParseLevel : string → logrus.Level + error) (IsDevRelease : bool)
    (opt : Options) (p : Process) : prog (option (option error) * Process) :=
  let level := level_name opt in
  match ParseLevel level with
  | inr err => Ret (Some (Some err), p)
  | inl logLevel =>
      let p := set_vars (set_heap (logrus.set_Level logrus.std logLevel)) p in
      if Syslog opt then
        Call syslogHook (λ r,
          match r with
          | inr err => Ret (Some (Some err), p)
          | inl hook =>
              let p := set_vars (set_heap (logrus.Hooks_Add logrus.std hook)) p in
              let p := set_vars (set_heap (logrus.set_Out logrus.std logrus.Discard)) p in
              Init_finish opt p
          end)
      else if IsDevRelease && bool_decide (logLevel = logrus.DebugLevel) then
        match std_TextFormatter p with
        | None => Ret (None, p)
        | Some formatter =>
            Init_finish opt
              {| vars := vars p;
                 formatters := <[formatter := TextFormatter RFC3339Nano]> (formatters p);
                 started := started p |}
        end
      else Init_finish opt p
  end.

(** The outcome of running [Init]. *)
Definition returned {W} (r : option (option error) * Process * W * list event)
  : option (option error) := r.1.1.1.
Definition process {W} (r : option (option error) * Process * W * list event)
  : Process := r.1.1.2.

Definition calls {W} (r : option (option error) * Process * W * list event)
  : list call := r.2.*1.

Arguments returned {W} r /.
Arguments process {W} r /.
Arguments calls {W} r /.

(** A process that has not called [Init]: the library as loaded, with
    its text formatter, an empty registry and zero options. *)
Definition fresh_process : Process :=
  {| vars := init {| Syslog := false; Level := ""; Redis := None |} logrus.loaded;
     formatters := {[ 2%nat := TextFormatter "" ]};
     started := [] |}.

(** A parser of levels for running [Init]: the names of the levels in
    lower case, as [logrus.ParseLevel] reads them. *)
Definition ParseLevel_names (lvl : string) : logrus.Level + error :=
  if String.eqb lvl "panic" then inl logrus.PanicLevel
  else if String.eqb lvl "fatal" then inl logrus.FatalLevel
  else if String.eqb lvl "error" then inl logrus.ErrorLevel
  else if String.eqb lvl "warn" || String.eqb lvl "warning" then inl logrus.WarnLevel
  else if String.eqb lvl "info" then inl logrus.InfoLevel
  else if String.eqb lvl "debug" then inl logrus.DebugLevel
  else if String.eqb lvl "trace" then inl logrus.TraceLevel
  else inr (Err "not a valid logrus Level").

(** Syslog can be reached, and gives a hook for the warnings and worse. *)
Definition syslog_hook : logrus.Hook :=
  {| logrus.Hook_id := 2;
     logrus.Hook_Levels := [logrus.PanicLevel; logrus.FatalLevel;
                            logrus.ErrorLevel; logrus.WarnLevel] |}.

Definition with_syslog (t : time.Time) : Script :=
  {| clock := t; hook_answer := inl syslog_hook;
     publish_answer := None; set_answer := None; del_answer := None;
     keys_answer := inl []; ttl_answer := λ _, inr (Err "no such key") |}.

(** The domain an operation is about. *)
Definition op_domain (o : op) : option string :=
  match o with
  | DoAdd domain _ => Some domain
  | DoRemove domain => Some domain
  | DoWithDomain domain => Some domain
  | DoExpiration domain => Some domain
  | DoReceive msg => message_domain msg
  | DoLoad _ => None
  end.

(** No byte of the string is a slash. *)
Fixpoint no_slash (s : string) : bool :=
  match s with
  | EmptyString => true
  | String c s' => negb (Ascii.eqb c "/") && no_slash s'
  end.

(** The standard logger exists and has a hook map. *)
Definition std_loaded (h : logrus.Heap) : Prop :=
  ∃ l, logrus.objs h !! logrus.std = Some l
       ∧ is_Some (logrus.hookmaps h !! logrus.Logger_Hooks l).

(** The goroutines that [Init] starts for given options. *)
Definition goroutines_of (opt : Options) : list goroutine :=
  match Redis opt with
  | Some cli => [go_subscribeLoggersDebug cli; go_loadDebug cli]
  | None => []
  end.

(** The message that a publish call delivers to the subscribers of its
    channel. *)
Definition delivered (c : call) : option Message :=
  match c with
  | cli_Publish channel payload => Some {| Channel := channel; Payload := payload |}
  | _ => None
  end.

(* ===================================================================== *)
(** ** model/vfs/vfsswift/swift.go *)
(* ===================================================================== *)

Module vfsswift.

(** [maxNbFilesToDelete], [maxSimultaneousCalls] *)
Definition maxNbFilesToDelete : Z := 8000.
Definition maxSimultaneousCalls : Z := 8.

(** The errors of the swift client: [swift.ContainerNotFound], or any
    other. *)
Inductive swift_error := ContainerNotFound | Failure (msg : string).

(** What [DeleteContainer] returns when it is not nil: an error of the
    swift client, the error of the retry helper, or the
    [*multierror.Error] of [deleteContainerFiles] with the errors it
    gathered. *)
Inductive error :=
| Single (e : swift_error)
| Multi (errors : list swift_error).

(** The methods of [*swift.Connection] that the file calls. *)
Inductive call :=
| Container (container : string)
| ObjectNamesAll (container : string)
| BulkDelete (container : string) (objects : list string)
| ContainerDelete (container : string).

(** The error of each call, and the names that [ObjectNamesAll] lists;
    the other values the calls return are dropped by the file. *)
Definition resp (c : call) : Type :=
  match c with
  | Container _ => option swift_error
  | ObjectNamesAll _ => list string + swift_error
  | BulkDelete _ _ => option swift_error
  | ContainerDelete _ => option swift_error
  end.

Inductive prog (A : Type) : Type :=
| Ret (a : A)
| Call (c : call) (k : resp c → prog A).

Arguments Ret {A} a.
Arguments Call {A} c k.

Fixpoint pbind {A B} (p : prog A) (f : A → prog B) : prog B :=
  match p with
  | Ret a => f a
  | Call c k => Call c (λ r, pbind (k r) f)
  end.

Definition handler (W : Type) : Type := ∀ c : call, W → resp c * W.

(** The error in an answer, nil or not. *)
Definition error_of (c : call) : resp c → option swift_error :=
  match c with
  | Container _ => λ err, err
  | ObjectNamesAll _ => λ r, match r with inl _ => None | inr e => Some e end
  | BulkDelete _ _ => λ err, err
  | ContainerDelete _ => λ err, err
  end.

(** Running a computation against the object store: its result, the
    store afterwards, and the calls made, in order, each with the error
    it got. *)
Fixpoint exec {A W} (h : handler W) (p : prog A) (w : W)
    : A * W * list (call * option swift_error) :=
  match p with
  | Ret a => (a, w, [])
  | Call c k =>
      let '(r, w') := h c w in
      let '(a, w'', tr) := exec h (k r) w' in
      (a, w'', (c, error_of c r) :: tr)
  end.

(** [l[b:e]]; [None] is the panic of a slice out of range. *)
Definition slice (l : list string) (b e : Z) : option (list string) :=
  if (0 <=? b) && (b <=? e) && (e <=? Z.of_nat (length l))
  then Some (take (Z.to_nat (e - b)) (drop (Z.to_nat b) l))
  else None.

(** [nb := 1 + (len(objectNames)-1)/maxNbFilesToDelete], with Go's
    division, which rounds towards zero. *)
Definition nb (objectNames : list string) : Z :=
  1 + Z.quot (Z.of_nat (length objectNames) - 1) maxNbFilesToDelete.

(** [objectToDelete] at turn [i] of the first loop. *)
Definition objectToDelete (objectNames : list string) (i : Z) : option (list string) :=
  let begin := i * maxNbFilesToDelete in
  let end_ := (i + 1) * maxNbFilesToDelete in
  let end_ := if Z.of_nat (length objectNames) <? end_
              then Z.of_nat (length objectNames) else end_ in
  slice objectNames begin end_.

(** The first loop of [deleteContainerFiles], from turn [i] for [turns]
    turns: the slices handed to the goroutines. *)
Fixpoint batches_from (turns : nat) (objectNames : list string) (i : Z)
    : option (list (list string)) :=
  match turns with
  | O => Some []
  | S turns' =>
      b ← objectToDelete objectNames i;
      bs ← batches_from turns' objectNames (i + 1);
      Some (b :: bs)
  end.

Definition batches (objectNames : list string) : option (list (list string)) :=
  batches_from (Z.to_nat (nb objectNames)) objectNames 0.

(** The calls of the goroutines, taken one at a time in the order [sched]
    in which the scheduler lets them run: goroutine [i] deletes batch
    [i].  Each answer is kept with the number of its goroutine. *)
Fixpoint bulk_deletes (container : string) (bs : list (list string)) (sched : list nat)
    : prog (list (nat * option swift_error)) :=
  match sched with
  | [] => Ret []
  | i :: rest =>
      match bs !! i with
      | Some b =>
          Call (BulkDelete container b) (λ err,
            pbind (bulk_deletes container bs rest) (λ rs, Ret ((i, err) :: rs)))
      | None => bulk_deletes container bs rest
      end
  end.

(** [multierror.Append(errm, err)] for an error of the swift client. *)
Definition Append (errm : option (list swift_error)) (err : swift_error)
    : option (list swift_error) :=
  match errm with
  | None => Some [err]
  | Some errors => Some (errors ++ [err])%list
  end.

(** The second loop: the errors are received from the channel in the order
    [recv] in which the goroutines send them, and the non-nil ones are
    gathered. *)
Definition gather (rs : list (nat * option swift_error)) (recv : list nat)
    : option (list swift_error) :=
  foldl (λ errm i,
           match rs.*2 !! i with
           | Some (Some err) => Append errm err
           | _ => errm
           end) None recv.

(** [func deleteContainerFiles(ctx, c, container, objectNames) error].
    The goroutines run at the same time, at most [maxSimultaneousCalls] of
    them inside a call; here each call is one step, [sched] is the order
    of the calls and [recv] the order, among the answers, in which the
    errors reach the channel.  The result is [None] when a slice panics. *)
Definition deleteContainerFiles (sched recv : list nat) (container : string)
    (objectNames : list string) : prog (option (option error)) :=
  match batches objectNames with
  | None => Ret None
  | Some bs =>
      pbind (bulk_deletes container bs sched) (λ rs,
        Ret (Some (Multi <$> gather rs recv)))
  end.

(** The function that [DeleteContainer] hands to the retry helper. *)
Definition delete_once (container : string) : prog (option swift_error) :=
  Call (ContainerDelete container) (λ err,
    match err with
    | Some ContainerNotFound => Ret None
    | _ => Ret err
    end).

(** [func DeleteContainer(ctx, c, container) error].
    [RetryWithExpBackoff] is the helper of pkg/utils, given a count, a
    delay and the function to call. *)
Definition DeleteContainer
    (RetryWithExpBackoff : Z → time.Duration → prog (option swift_error)
                           → prog (option error))
    (sched recv : list nat) (container : string) : prog (option (option error)) :=
  Call (Container container) (λ err,
    match err with
    | Some ContainerNotFound => Ret (Some None)
    | Some e => Ret (Some (Some (Single e)))
    | None =>
        Call (ObjectNamesAll container) (λ r,
          match r with
          | inr e => Ret (Some (Some (Single e)))
          | inl objectNames =>
              let retry :=
                pbind (RetryWithExpBackoff 5 (2 * time.Second) (delete_once container))
                      (λ err, Ret (Some err)) in
              if (0 <? length objectNames)%nat then
                pbind (deleteContainerFiles sched recv container objectNames) (λ r,
                  match r with
                  | None => Ret None
                  | Some (Some e) => Ret (Some (Some e))
                  | Some None => retry
                  end)
              else retry
          end)
    end).

(** A retry helper for running [DeleteContainer]: it calls the function
    until it returns nil, [count] times at most, and returns the last
    error; the waits between the calls are left out. *)
Fixpoint retry_calls (count : nat) (fn : prog (option swift_error))
    : prog (option error) :=
  pbind fn (λ err,
    match err with
    | None => Ret None
    | Some e =>
        match count with
        | S (S _ as count') => retry_calls count' fn
        | _ => Ret (Some (Single e))
        end
    end).

Definition RetryWithExpBackoff_calls (count : Z) (delay : time.Duration)
    (fn : prog (option swift_error)) : prog (option error) :=
  retry_calls (Z.to_nat count) fn.

(** An object store for running the file: a container with its object
    names, where bulk deletes of a batch holding a name of [broken] fail. *)
Record Store := mkStore {
  exists_ : bool;
  objects : list string;
  broken : list string;
  deletes_left_to_fail : nat
}.

Definition store : handler Store :=
  λ c, match c return Store → resp c * Store with
       | Container _ => λ w, (if exists_ w then None else Some ContainerNotFound, w)
       | ObjectNamesAll _ => λ w, (inl (objects w), w)
       | BulkDelete _ names => λ w,
           if existsb (λ n, existsb (String.eqb n) (broken w)) names
           then (Some (Failure "bulk delete failed"), w)
           else (None, {| exists_ := exists_ w;
                          objects := List.filter (λ o, negb (existsb (String.eqb o) names)) (objects w);
                          broken := broken w;
                          deletes_left_to_fail := deletes_left_to_fail w |})
       | ContainerDelete _ => λ w,
           match deletes_left_to_fail w with
           | S n => (Some (Failure "container not empty"),
                     {| exists_ := exists_ w; objects := objects w; broken := broken w;
                        deletes_left_to_fail := n |})
           | O => (None, {| exists_ := false; objects := objects w; broken := broken w;
                            deletes_left_to_fail := O |})
           end
       end.

(** The calls [cs] made one after the other from the store [w]: the store
    they leave, and each call with the error it gets. *)
Fixpoint after {W} (h : handler W) (cs : list call) (w : W) : W :=
  match cs with
  | [] => w
  | c :: cs => after h cs (h c w).2
  end.

Fixpoint answers {W} (h : handler W) (cs : list call) (w : W)
    : list (call * option swift_error) :=
  match cs with
  | [] => []
  | c :: cs => (c, error_of c (h c w).1) :: answers h cs (h c w).2
  end.

End vfsswift.

(* ===================================================================== *)
(** * Properties *)
(* ===================================================================== *)

(** ** Running computations *)

Lemma exec_pbind {A B W} (h : handler W) (p : prog A) (f : A → prog B) (w : W) :
  exec h (pbind p f) w =
    let '(a, w1, t1) := exec h p w in
    let '(b, w2, t2) := exec h (f a) w1 in
    (b, w2, (t1 ++ t2)%list).
Proof.
  revert w. induction p as [a | c k IH]; intros w; simpl.
  - by destruct (exec h (f a) w) as [[b w2] t2].
  - destruct (h c w) as [r w']. rewrite IH.
    destruct (exec h (k r) w') as [[a w1] t1].
    by destruct (exec h (f a) w1) as [[b w2] t2].
Qed.

Lemma exec_bind {A B W} (h : handler W) (m : M A) (f : A → M B) (s : State) (w : W) :
  exec h (bind m f s) w =
    let '(a, s1, w1, t1) := exec h (m s) w in
    let '(b, w2, t2) := exec h (f a s1) w1 in
    (b, w2, (t1 ++ t2)%list).
Proof.
  unfold bind. rewrite exec_pbind.
  by destruct (exec h (m s) w) as [[[a s1] w1] t1].
Qed.

Lemma exec_ask_bind {A W} (h : handler W) (c : call) (f : resp c → M A)
    (s : State) (w : W) :
  exec h (bind (ask c) f s) w =
    let '(r, w1) := h c w in
    let '(a, w2, t) := exec h (f r s) w1 in
    (a, w2, ev c r :: t).
Proof. unfold bind, ask. simpl. by destruct (h c w) as [r w1]. Qed.

Lemma always_exec {A W} (h : handler W) (p : prog A) (Q : A → Prop) (w : W) :
  always p Q → Q (exec h p w).1.1.
Proof.
  revert w. induction p as [a | c k IH]; intros w H; simpl in *; [done|].
  destruct (h c w) as [r w']. specialize (IH r w' (H r)).
  by destruct (exec h (k r) w') as [[a w''] tr].
Qed.

Lemma always_mono {A} (p : prog A) (Q Q' : A → Prop) :
  (∀ a, Q a → Q' a) → always p Q → always p Q'.
Proof. intros HQ. induction p; simpl; eauto. Qed.

Lemma always_pbind {A B} (p : prog A) (f : A → prog B) (Q : B → Prop) :
  always p (λ a, always (f a) Q) → always (pbind p f) Q.
Proof. induction p; simpl; eauto. Qed.

Lemma hoare_ret {A} (P : State → Prop) (a : A) (Q : A → State → Prop) :
  (∀ s, P s → Q a s) → hoare P (ret a) Q.
Proof. intros H s Hs. simpl. auto. Qed.

Lemma hoare_bind {A B} (P : State → Prop) (m : M A) (R : A → State → Prop)
    (f : A → M B) (Q : B → State → Prop) :
  hoare P m R → (∀ a, hoare (R a) (f a) Q) → hoare P (bind m f) Q.
Proof.
  intros Hm Hf s Hs. unfold bind. apply always_pbind.
  eapply always_mono; [|exact (Hm s Hs)].
  intros [a s'] HR. simpl in *. exact (Hf a s' HR).
Qed.

Lemma hoare_conseq {A} (P P' : State → Prop) (m : M A) (Q Q' : A → State → Prop) :
  (∀ s, P' s → P s) → (∀ a s, Q a s → Q' a s) → hoare P m Q → hoare P' m Q'.
Proof.
  intros HP HQ H s Hs. eapply always_mono; [|exact (H s (HP s Hs))].
  intros [a s']. apply HQ.
Qed.

Lemma hoare_modify (P : State → Prop) (f : State → State) (Q : unit → State → Prop) :
  (∀ s, P s → Q tt (f s)) → hoare P (modify f) Q.
Proof. intros H s Hs. simpl. auto. Qed.

Lemma hoare_ask (P : State → Prop) (c : call) (Q : resp c → State → Prop) :
  (∀ s r, P s → Q r s) → hoare P (ask c) Q.
Proof. intros H s Hs. simpl. auto. Qed.

(** ** Activation, step by step *)

Lemma state_eq (s s' : State) :
  opts s = opts s' → loggers s = loggers s' → heap s = heap s' → s = s'.
Proof. destruct s, s'; simpl; congruence. Qed.

Lemma exec_addDebugDomain_present {W} (h : handler W) (w : W) (s : State)
    (domain : string) (ttl : time.Duration) :
  loggers s !! domain ≠ None →
  exec h (addDebugDomain domain ttl s) w = (tt, s, w, []).
Proof.
  intros H. unfold addDebugDomain, bind, get. simpl.
  by destruct (loggers s !! domain).
Qed.

Lemma exec_addDebugDomain_absent {W} (h : handler W) (w : W) (s : State)
    (domain : string) (ttl : time.Duration) :
  loggers s !! domain = None →
  exec h (addDebugDomain domain ttl s) w =
    if Syslog (opts s) then
      let '(r, w1) := h syslogHook w in
      let '(now, w2) := h time_Now w1 in
      (tt, activated s domain (hook_of r) (time.Add now ttl), w2,
       [ev syslogHook r; ev time_Now now])
    else
      let '(now, w1) := h time_Now w in
      (tt, activated s domain None (time.Add now ttl), w1, [ev time_Now now]).
Proof.
  intros H. unfold addDebugDomain, bind, get. simpl. rewrite H. simpl.
  destruct (Syslog (opts s)) eqn:Hsys; simpl.
  - destruct (h syslogHook w) as [[hook|e] w1]; simpl;
      destruct (h time_Now w1) as [now w2]; simpl;
      (f_equal; f_equal; f_equal; apply state_eq; simpl; [done|done|]).
    + unfold logrus.set_Out, logrus.Hooks_Add, logrus.set_Level. simpl.
      rewrite alter_insert_eq, lookup_insert_eq. simpl.
      rewrite alter_insert_eq, alter_insert_eq. done.
    + unfold logrus.set_Level. simpl. rewrite alter_insert_eq. done.
  - destruct (h time_Now w) as [now w1]; simpl.
    f_equal; f_equal; f_equal. apply state_eq; simpl; [done|done|].
    unfold logrus.set_Level. simpl. rewrite alter_insert_eq. done.
Qed.

Lemma always_addDebugDomain (s : State) (domain : string) (ttl : time.Duration)
    (Q : State → Prop) :
  (loggers s !! domain ≠ None → Q s) →
  (loggers s !! domain = None →
   ∀ syslog now, Q (activated s domain syslog (time.Add now ttl))) →
  always (addDebugDomain domain ttl s) (λ r, Q r.2).
Proof.
  intros Hpresent Habsent. unfold addDebugDomain, bind, get. simpl.
  destruct (loggers s !! domain) as [e|] eqn:H; simpl; [by apply Hpresent|].
  specialize (Habsent eq_refl).
  assert (∀ syslog now s',
    opts s' = opts s →
    loggers s' = <[domain := {| log := logrus.next (heap s);
                                expiredAt := Some (time.Add now ttl) |}]> (loggers s) →
    heap s' = heap (activated s domain syslog (time.Add now ttl)) →
    Q s') as Hstate.
  { intros syslog now s' Ho Hl Hh.
    replace s' with (activated s domain syslog (time.Add now ttl)); [apply Habsent|].
    symmetry. by apply state_eq. }
  destruct (Syslog (opts s)); simpl.
  - intros [hook|e] now; simpl.
    + apply (Hstate (Some hook) now); simpl; [done|done|].
      unfold logrus.set_Out, logrus.Hooks_Add, logrus.set_Level. simpl.
      rewrite alter_insert_eq, lookup_insert_eq. simpl.
      by rewrite !alter_insert_eq.
    + apply (Hstate None now); simpl; [done|done|].
      unfold logrus.set_Level. simpl. by rewrite alter_insert_eq.
  - intros now. apply (Hstate None now); simpl; [done|done|].
    unfold logrus.set_Level. simpl. by rewrite alter_insert_eq.
Qed.

(** ** The invariants are kept *)

Lemma activated_heap_ok (s : State) (domain : string) (syslog : option logrus.Hook)
    (t : time.Time) :
  heap_ok (heap s) → heap_ok (heap (activated s domain syslog t)).
Proof.
  intros [Hobjs Hmaps]. split; simpl.
  - apply map_Forall_insert_2; [simpl; lia|].
    eapply map_Forall_impl; [exact Hobjs|]. simpl. intros ? ? ?. lia.
  - apply map_Forall_insert_2; [lia|].
    eapply map_Forall_impl; [exact Hmaps|]. simpl. intros ? ? ?. lia.
Qed.

Lemma activated_debug_entries (s : State) (domain : string)
    (syslog : option logrus.Hook) (t : time.Time) :
  heap_ok (heap s) → debug_entries s → debug_entries (activated s domain syslog t).
Proof.
  intros [Hobjs _] Hdbg. unfold debug_entries. simpl.
  apply map_Forall_insert_2; simpl.
  - by rewrite lookup_insert_eq.
  - intros D e He. specialize (Hdbg D e He). simpl in Hdbg.
    destruct (logrus.objs (heap s) !! log e) as [l|] eqn:Hl; [|done].
    rewrite lookup_insert_ne, Hl; [done|].
    intros Heq. apply Hobjs in Hl. lia.
Qed.

Lemma activated_expiring (s : State) (domain : string) (syslog : option logrus.Hook)
    (t : time.Time) :
  expiring s → expiring (activated s domain syslog t).
Proof.
  intros H. unfold expiring. simpl. apply map_Forall_insert_2; [by eexists|done].
Qed.

Lemma activated_inv (s : State) (domain : string) (syslog : option logrus.Hook)
    (t : time.Time) :
  inv s → inv (activated s domain syslog t).
Proof.
  intros (Hh & Hd & He). split; [|split].
  - by apply activated_heap_ok.
  - by apply activated_debug_entries.
  - by apply activated_expiring.
Qed.

Lemma removed_inv (s : State) (domain : string) :
  inv s → inv (set_loggers (delete domain) s).
Proof.
  intros (Hh & Hd & He). split; [done|]. split.
  - unfold debug_entries. simpl. by apply map_Forall_delete.
  - unfold expiring. simpl. by apply map_Forall_delete.
Qed.

(** Any property of the state that activations and removals keep is kept
    by every function of the package, whatever the environment answers. *)
Section kept.

Variable I : State → Prop.
Hypothesis I_activated :
  ∀ s domain syslog t, I s → I (activated s domain syslog t).
Hypothesis I_removed :
  ∀ s domain, I s → I (set_loggers (delete domain) s).

Lemma addDebugDomain_keeps (domain : string) (ttl : time.Duration) :
  hoare I (addDebugDomain domain ttl) (λ _, I).
Proof.
  intros s Hs. apply always_addDebugDomain; [done|].
  intros _ syslog now. by apply I_activated.
Qed.

Lemma removeDebugDomain_keeps (domain : string) :
  hoare I (removeDebugDomain domain) (λ _, I).
Proof. apply hoare_modify. intros s Hs. by apply I_removed. Qed.

Lemma publishDebug_keeps (cli : UniversalClient) (channel domain : string)
    (ttl : time.Duration) :
  hoare I (publishDebug cli channel domain ttl) (λ _, I).
Proof.
  intros s Hs. unfold publishDebug, bind, ask. simpl.
  intros [e|]; simpl; [done|].
  destruct (String.eqb channel debugRedisAddChannel); simpl; done.
Qed.

Lemma AddDebugDomain_keeps (domain : string) (ttl : time.Duration) :
  hoare I (AddDebugDomain domain ttl) (λ _, I).
Proof.
  intros s Hs. unfold AddDebugDomain, bind, get. simpl.
  destruct (Redis (opts s)) as [cli|].
  - by apply publishDebug_keeps.
  - apply always_pbind. eapply always_mono; [|by apply addDebugDomain_keeps].
    by intros [[] s'].
Qed.

Lemma RemoveDebugDomain_keeps (domain : string) :
  hoare I (RemoveDebugDomain domain) (λ _, I).
Proof.
  intros s Hs. unfold RemoveDebugDomain, bind, get. simpl.
  destruct (Redis (opts s)) as [cli|].
  - by apply publishDebug_keeps.
  - simpl. by apply I_removed.
Qed.

Lemma WithDomain_keeps (domain : string) :
  hoare I (WithDomain domain) (λ _, I).
Proof.
  intros s Hs. unfold WithDomain, bind, get. simpl.
  destruct (loggers s !! domain) as [e|]; simpl; [|done].
  unfold lift, Expired. destruct (expiredAt e) as [t|]; simpl; [|done].
  intros now. destruct (time.Before t now); simpl; [by apply I_removed|done].
Qed.

Lemma DebugExpiration_keeps (domain : string) :
  hoare I (DebugExpiration domain) (λ _, I).
Proof.
  intros s Hs. unfold DebugExpiration, bind, get. simpl.
  by destruct (loggers s !! domain).
Qed.

Lemma receive_keeps (ParseDuration : string → time.Duration * option error)
    (msg : Message) :
  hoare I (receive ParseDuration msg) (λ _, I).
Proof.
  intros s Hs. unfold receive.
  destruct (gostrings.Split (Payload msg) "/" !! 0%nat) as [domain|]; [|done].
  destruct (String.eqb (Channel msg) debugRedisAddChannel).
  - match goal with |- context [match ?t with Some _ => _ | None => _ end] =>
      destruct t as [ttl|] end; [|done].
    unfold bind. apply always_pbind.
    eapply always_mono; [|by apply addDebugDomain_keeps]. by intros [[] s'].
  - destruct (String.eqb (Channel msg) debugRedisRmvChannel); simpl; [|done].
    by apply I_removed.
Qed.

Lemma loadDebug_keys_keeps (keys : list string) :
  hoare I (loadDebug_keys keys) (λ _, I).
Proof.
  induction keys as [|key rest IH]; [by apply hoare_ret|].
  simpl. eapply hoare_bind; [apply (hoare_ask I (cli_TTL key) (λ _, I)); auto|].
  intros [ttl|e]; [|exact IH].
  eapply hoare_bind; [apply addDebugDomain_keeps|]. intros ?. exact IH.
Qed.

Lemma loadDebug_keeps (cli : UniversalClient) :
  hoare I (loadDebug cli) (λ _, I).
Proof.
  unfold loadDebug.
  eapply hoare_bind;
    [apply (hoare_ask I (cli_Keys (debugRedisPrefix +:+ "*")) (λ _, I)); auto|].
  intros [keys|e]; [apply loadDebug_keys_keeps|by apply hoare_ret].
Qed.

Lemma run_op_keeps (ParseDuration : string → time.Duration * option error) (o : op) :
  hoare I (run_op ParseDuration o) (λ _, I).
Proof.
  assert (∀ A (m : M A), hoare I m (λ _, I) →
                          hoare I (bind m (λ _, ret tt)) (λ _, I)) as Hret.
  { intros A m Hm. eapply hoare_bind; [exact Hm|]. intros ?. by apply hoare_ret. }
  destruct o; simpl; try apply Hret.
  - apply AddDebugDomain_keeps.
  - apply RemoveDebugDomain_keeps.
  - apply WithDomain_keeps.
  - apply DebugExpiration_keeps.
  - apply receive_keeps.
  - apply loadDebug_keeps.
Qed.

Lemma run_ops_keeps (ParseDuration : string → time.Duration * option error)
    (ops : list op) :
  hoare I (run_ops ParseDuration ops) (λ _, I).
Proof.
  induction ops as [|o rest IH]; [by apply hoare_ret|].
  simpl. eapply hoare_bind; [apply run_op_keeps|]. intros ?. exact IH.
Qed.

End kept.

Lemma AddDebugDomain_inv (domain : string) (ttl : time.Duration) :
  hoare inv (AddDebugDomain domain ttl) (λ _, inv).
Proof. apply AddDebugDomain_keeps; first [apply activated_inv|apply removed_inv]. Qed.

Lemma run_op_inv (ParseDuration : string → time.Duration * option error) (o : op) :
  hoare inv (run_op ParseDuration o) (λ _, inv).
Proof. apply run_op_keeps; first [apply activated_inv|apply removed_inv]. Qed.

Lemma run_ops_expiring (ParseDuration : string → time.Duration * option error)
    (ops : list op) :
  hoare expiring (run_ops ParseDuration ops) (λ _, expiring).
Proof.
  apply run_ops_keeps.
  - intros s domain syslog t. apply activated_expiring.
  - intros s domain H. unfold expiring. simpl. by apply map_Forall_delete.
Qed.

Lemma loaded_heap_ok : heap_ok logrus.loaded.
Proof.
  split; simpl.
  - apply map_Forall_insert_2; [simpl; lia|]. apply map_Forall_empty.
  - apply map_Forall_insert_2; [lia|]. apply map_Forall_empty.
Qed.

Lemma init_inv (o : Options) (h : logrus.Heap) : heap_ok h → inv (init o h).
Proof.
  intros Hh. split; [done|]. split; apply map_Forall_empty.
Qed.

Lemma hoare_exec {A W} (h : handler W) (w : W) (P : State → Prop) (m : M A)
    (Q : A → State → Prop) (s : State) :
  hoare P m Q → P s →
  Q (result (exec h (m s) w)) (final (exec h (m s) w)).
Proof. intros Hm Hs. exact (always_exec h (m s) _ w (Hm s Hs)). Qed.

Lemma alice_active_inv : inv alice_active.
Proof.
  apply (hoare_exec scripted (quiet 1000) inv (AddDebugDomain alice (5 * time.Minute))
           (λ _, inv)).
  - apply AddDebugDomain_inv.
  - apply init_inv, loaded_heap_ok.
Qed.

(** ** C1: [WithDomain] *)



(** ** The exported functions without Redis *)

Lemma exec_AddDebugDomain_local {W} (h : handler W) (w : W) (s : State)
    (domain : string) (ttl : time.Duration) :
  Redis (opts s) = None →
  exec h (AddDebugDomain domain ttl s) w =
    let '(_, s', w', tr) := exec h (addDebugDomain domain ttl s) w in
    (None, s', w', tr).
Proof.
  intros Hlocal. unfold AddDebugDomain. unfold bind at 1. unfold get. simpl.
  rewrite Hlocal, exec_bind.
  destruct (exec h (addDebugDomain domain ttl s) w) as [[[[] s'] w'] tr]. simpl.
  by rewrite app_nil_r.
Qed.

Lemma exec_RemoveDebugDomain_local {W} (h : handler W) (w : W) (s : State)
    (domain : string) :
  Redis (opts s) = None →
  exec h (RemoveDebugDomain domain s) w = (None, set_loggers (delete domain) s, w, []).
Proof.
  intros Hlocal. unfold RemoveDebugDomain, bind, get. simpl. by rewrite Hlocal.
Qed.

Lemma exec_WithDomain_absent {W} (h : handler W) (w : W) (s : State) (domain : string) :
  loggers s !! domain = None →
  exec h (WithDomain domain s) w = (logrus.WithField "domain" domain, s, w, []).
Proof. intros H. unfold WithDomain, bind, get. simpl. by rewrite H. Qed.

Lemma exec_DebugExpiration {W} (h : handler W) (w : W) (s : State) (domain : string) :
  exec h (DebugExpiration domain s) w = (loggers s !! domain ≫= expiredAt, s, w, []).
Proof.
  unfold DebugExpiration, bind, get. simpl. by destruct (loggers s !! domain).
Qed.

Lemma AddDebugDomain_local_absent {W} (h : handler W) (w : W) (s : State)
    (domain : string) (ttl : time.Duration) :
  Redis (opts s) = None → loggers s !! domain = None →
  let r := exec h (AddDebugDomain domain ttl s) w in
  result r = None ∧
  loggers (final r) =
    <[domain := {| log := logrus.next (heap s);
                   expiredAt := Some (time.Add (reading h w s) ttl) |}]> (loggers s) ∧
  opts (final r) = opts s.
Proof.
  intros Hlocal Habsent. simpl.
  rewrite exec_AddDebugDomain_local, exec_addDebugDomain_absent by done.
  unfold reading. destruct (Syslog (opts s)).
  - destruct (h syslogHook w) as [hr w1]. simpl.
    by destruct (h time_Now w1) as [now w2].
  - by destruct (h time_Now w) as [now w1].
Qed.

Lemma AddDebugDomain_local_present {W} (h : handler W) (w : W) (s : State)
    (domain : string) (ttl : time.Duration) :
  Redis (opts s) = None → loggers s !! domain ≠ None →
  exec h (AddDebugDomain domain ttl s) w = (None, s, w, []).
Proof.
  intros Hlocal Hpresent.
  by rewrite exec_AddDebugDomain_local, exec_addDebugDomain_present.
Qed.

Lemma AddDebugDomain_local_opts {W} (h : handler W) (w : W) (s : State)
    (domain : string) (ttl : time.Duration) :
  Redis (opts s) = None →
  opts (final (exec h (AddDebugDomain domain ttl s) w)) = opts s ∧
  loggers (final (exec h (AddDebugDomain domain ttl s) w)) !! domain ≠ None.
Proof.
  intros Hlocal. destruct (loggers s !! domain) as [e|] eqn:He.
  - rewrite AddDebugDomain_local_present by (done || congruence).
    simpl. split; [done|congruence].
  - destruct (AddDebugDomain_local_absent h w s domain ttl Hlocal He) as (_ & Hl & Ho).
    split; [done|]. rewrite Hl, lookup_insert_eq. done.
Qed.

(** ** C2: activating twice *)

(** C2. Without Redis, [AddDebugDomain] of a domain followed at once by a
    second [AddDebugDomain] of the same domain, whatever the two
    durations: the second call changes nothing (it makes no call, not even
    to the clock, and leaves the state as the first call left it), so the
    entry keeps the logger and the expiry of the first call, which for a
    domain absent before is the clock reading plus the first duration. *)
Theorem AddDebugDomain_twice {W} (h : handler W) (w : W) (s : State)
    (domain : string) (t1 t2 : time.Duration) :
  Redis (opts s) = None →
  let r1 := exec h (AddDebugDomain domain t1 s) w in
  let r2 := exec h (AddDebugDomain domain t2 (final r1)) (world r1) in
  result r2 = None ∧ trace r2 = [] ∧ world r2 = world r1 ∧
  final r2 = final r1 ∧
  loggers (final r2) !! domain = loggers (final r1) !! domain ∧
  (loggers s !! domain = None →
   loggers (final r2) !! domain =
     Some {| log := logrus.next (heap s);
             expiredAt := Some (time.Add (reading h w s) t1) |}).
Proof.
  intros Hlocal r1 r2.
  destruct (AddDebugDomain_local_opts h w s domain t1 Hlocal) as [Ho Hpresent].
  fold r1 in Ho, Hpresent.
  assert (exec h (AddDebugDomain domain t2 (final r1)) (world r1)
          = (None, final r1, world r1, [])) as Hr2.
  { apply AddDebugDomain_local_present; [by rewrite Ho|done]. }
  subst r2. rewrite Hr2. simpl. repeat split; try done.
  intros Habsent.
  destruct (AddDebugDomain_local_absent h w s domain t1 Hlocal Habsent) as (_ & Hl & _).
  fold r1 in Hl. simpl in Hl. by rewrite Hl, lookup_insert_eq.
Qed.

Lemma AddDebugDomain_twice_witness :
  let r1 := exec scripted (AddDebugDomain alice (5 * time.Minute)
                             (init local_opts logrus.loaded)) (quiet 1000) in
  let r2 := exec scripted (AddDebugDomain alice time.Hour (final r1)) (world r1) in
  final r2 = final r1 ∧
  loggers (final r2) !! alice
    = Some {| log := 3%nat; expiredAt := Some (1000 + 5 * time.Minute) |}.
Proof.
  pose proof (AddDebugDomain_twice scripted (quiet 1000) (init local_opts logrus.loaded)
                alice (5 * time.Minute) time.Hour eq_refl) as H.
  split; [apply H|]. apply H. done.
Defined.

(** ** C9: activate, then deactivate *)

(** C9. Without Redis, for every domain and every duration (positive or
    not), [AddDebugDomain] followed by [RemoveDebugDomain] leaves no entry
    for the domain; both calls return nil; the next [WithDomain] returns
    the standard logger tagged with the domain and changes nothing, and
    [DebugExpiration] returns nil.  When the domain had no entry before,
    the registry is back to what it was. *)
Theorem activate_deactivate {W} (h : handler W) (w : W) (s : State)
    (domain : string) (ttl : time.Duration) :
  Redis (opts s) = None →
  let r1 := exec h (AddDebugDomain domain ttl s) w in
  let r2 := exec h (RemoveDebugDomain domain (final r1)) (world r1) in
  let r3 := exec h (WithDomain domain (final r2)) (world r2) in
  let r4 := exec h (DebugExpiration domain (final r3)) (world r3) in
  result r1 = None ∧ result r2 = None ∧
  loggers (final r2) !! domain = None ∧
  (loggers s !! domain = None → loggers (final r2) = loggers s) ∧
  result r3 = logrus.WithField "domain" domain ∧
  logrus.Entry_Logger (result r3) = logrus.std ∧
  final r3 = final r2 ∧ trace r3 = [] ∧
  result r4 = None.
Proof.
  intros Hlocal r1 r2 r3 r4.
  destruct (AddDebugDomain_local_opts h w s domain ttl Hlocal) as [Ho _].
  fold r1 in Ho.
  assert (r2 = (None, set_loggers (delete domain) (final r1), world r1, [])) as Hr2.
  { apply exec_RemoveDebugDomain_local. by rewrite Ho. }
  assert (loggers (final r2) !! domain = None) as Hgone.
  { rewrite Hr2. simpl. apply lookup_delete_eq. }
  assert (r3 = (logrus.WithField "domain" domain, final r2, world r2, [])) as Hr3.
  { by apply exec_WithDomain_absent. }
  assert (result r4 = None) as Hr4.
  { subst r4. rewrite exec_DebugExpiration. rewrite Hr3. simpl.
    simpl in Hgone. by rewrite Hgone. }
  assert (result r1 = None) as Hr1.
  { subst r1. rewrite exec_AddDebugDomain_local by done.
    by destruct (exec h (addDebugDomain domain ttl s) w) as [[[[] ?] ?] ?]. }
  split; [done|]. split; [by rewrite Hr2|]. split; [done|].
  split; [|by rewrite Hr3].
  intros Habsent.
  destruct (AddDebugDomain_local_absent h w s domain ttl Hlocal Habsent) as (_ & Hl & _).
  fold r1 in Hl. rewrite Hr2. simpl. simpl in Hl. rewrite Hl.
  rewrite delete_insert_eq. by apply delete_id.
Qed.

Lemma activate_deactivate_witness :
  let s := init local_opts logrus.loaded in
  let r1 := exec scripted (AddDebugDomain alice (5 * time.Minute) s) (quiet 1000) in
  let r2 := exec scripted (RemoveDebugDomain alice (final r1)) (world r1) in
  let r3 := exec scripted (WithDomain alice (final r2)) (world r2) in
  let r4 := exec scripted (DebugExpiration alice (final r3)) (world r3) in
  loggers (final r2) = ∅ ∧
  logrus.Entry_Logger (result r3) = logrus.std ∧
  result r4 = None.
Proof.
  pose proof (activate_deactivate scripted (quiet 1000) (init local_opts logrus.loaded)
                alice (5 * time.Minute) eq_refl) as H.
  split; [by apply H|]. split; apply H.
Defined.

(** ** C10: [DebugExpiration] *)

Lemma always_keeps_entry (s : State) (domain d : string) (ttl : time.Duration) :
  loggers s !! domain ≠ None →
  always (addDebugDomain d ttl s) (λ r, loggers r.2 !! domain ≠ None).
Proof.
  intros H. apply (always_addDebugDomain s d ttl (λ s', loggers s' !! domain ≠ None));
    [done|].
  intros Hd syslog now. simpl.
  destruct (decide (d = domain)) as [->|Hne];
    [by rewrite lookup_insert_eq | by rewrite lookup_insert_ne].
Qed.

Lemma loadDebug_keys_keeps_entry (keys : list string) (domain : string) :
  hoare (λ s, loggers s !! domain ≠ None) (loadDebug_keys keys)
        (λ _ s, loggers s !! domain ≠ None).
Proof.
  induction keys as [|key rest IH]; [by apply hoare_ret|].
  simpl. eapply hoare_bind.
  { apply (hoare_ask _ (cli_TTL key) (λ _ s, loggers s !! domain ≠ None)); auto. }
  intros [ttl|e]; [|exact IH].
  eapply hoare_bind; [|intros ?; exact IH].
  intros s Hs. eapply always_mono; [|by apply always_keeps_entry].
  by intros [? ?].
Qed.

Lemma always_then_ret {A B} (m : M A) (b : B) (s : State) (Q : State → Prop) :
  always (m s) (λ r, Q r.2) → always (bind m (λ _, ret b) s) (λ r, Q r.2).
Proof.
  intros H. unfold bind. apply always_pbind.
  eapply always_mono; [|exact H]. by intros [a s'].
Qed.

Lemma always_publishDebug (cli : UniversalClient) (channel domain : string)
    (ttl : time.Duration) (s : State) (Q : State → Prop) :
  Q s → always (publishDebug cli channel domain ttl s) (λ r, Q r.2).
Proof.
  intros H. unfold publishDebug, bind, ask. simpl. intros [e|]; simpl; [done|].
  destruct (String.eqb channel debugRedisAddChannel); simpl; done.
Qed.

Lemma only_removal_removes (ParseDuration : string → time.Duration * option error)
    (o : op) (domain : string) (s : State) :
  loggers s !! domain ≠ None →
  always (run_op ParseDuration o s)
         (λ r, loggers r.2 !! domain = None → removes o domain s).
Proof.
  intros Hpresent.
  assert (∀ d s', loggers (set_loggers (delete d) s') !! domain = None →
                  loggers s' !! domain ≠ None → d = domain) as Hdel.
  { intros d s' Hgone Hs'. destruct (decide (d = domain)) as [->|Hne]; [done|].
    simpl in Hgone. by rewrite lookup_delete_ne in Hgone. }
  destruct o as [d ttl|d|d|d|msg|cli]; unfold run_op, removes.
  - apply (always_then_ret _ _ _ (λ s', loggers s' !! domain = None → False)).
    unfold AddDebugDomain. unfold bind at 1. unfold get. simpl.
    destruct (Redis (opts s)) as [c|].
    + by apply (always_publishDebug _ _ _ _ _
                  (λ s', loggers s' !! domain = None → False)).
    + apply (always_then_ret _ _ _ (λ s', loggers s' !! domain = None → False)).
      eapply always_mono; [|by apply (always_keeps_entry s domain d ttl)].
      by intros [[] s'].
  - apply (always_then_ret _ _ _
             (λ s', loggers s' !! domain = None → d = domain ∧ Redis (opts s) = None)).
    unfold RemoveDebugDomain. unfold bind at 1. unfold get. simpl.
    destruct (Redis (opts s)) as [c|] eqn:Hc.
    + by apply (always_publishDebug _ _ _ _ _
                  (λ s', loggers s' !! domain = None → d = domain ∧ Some c = None)).
    + simpl. intros Hgone. split; [|done]. by apply (Hdel d s).
  - apply (always_then_ret _ _ _ (λ s', loggers s' !! domain = None → d = domain)).
    unfold WithDomain, bind, get. simpl.
    destruct (loggers s !! d) as [e|] eqn:He; simpl; [|done].
    unfold lift, Expired. destruct (expiredAt e) as [t|]; simpl; [|done].
    intros now. destruct (time.Before t now); simpl; [|done].
    intros Hgone. by apply (Hdel d s).
  - apply (always_then_ret _ _ _ (λ s', loggers s' !! domain = None → False)).
    unfold DebugExpiration, bind, get. simpl.
    destruct (loggers s !! d); simpl; done.
  - apply (always_then_ret _ _ _
             (λ s', loggers s' !! domain = None →
                    Channel msg = debugRedisRmvChannel ∧
                    gostrings.Split (Payload msg) "/" !! 0%nat = Some domain)).
    unfold receive.
    destruct (gostrings.Split (Payload msg) "/" !! 0%nat) as [d|] eqn:Hd; [|done].
    destruct (String.eqb (Channel msg) debugRedisAddChannel) eqn:Hadd.
    + match goal with |- context [match ?t with Some _ => _ | None => _ end] =>
        destruct t as [ttl|] end; [|done].
      apply (always_then_ret _ _ _
               (λ s', loggers s' !! domain = None →
                      Channel msg = debugRedisRmvChannel ∧ Some d = Some domain)).
      eapply always_mono; [|by apply (always_keeps_entry s domain d ttl)].
      by intros [[] s'].
    + destruct (String.eqb (Channel msg) debugRedisRmvChannel) eqn:Hrmv; simpl; [|done].
      intros Hgone. apply String.eqb_eq in Hrmv. split; [done|].
      f_equal. by apply (Hdel d s).
  - assert (hoare (λ s, loggers s !! domain ≠ None) (loadDebug cli)
                   (λ _ s, loggers s !! domain ≠ None)) as Hkeep.
    { unfold loadDebug. eapply hoare_bind.
      { apply (hoare_ask _ (cli_Keys (debugRedisPrefix +:+ "*"))
                 (λ _ s, loggers s !! domain ≠ None)); auto. }
      intros [keys|e]; [apply loadDebug_keys_keeps_entry|by apply hoare_ret]. }
    eapply always_mono; [|exact (Hkeep s Hpresent)].
    intros [[] s'] H1 H2. simpl in *. done.
Qed.

Lemma DebugExpiration_nil (s : State) (domain : string) :
  expiring s →
  loggers s !! domain ≫= expiredAt = None ↔ loggers s !! domain = None.
Proof.
  intros Hexp. destruct (loggers s !! domain) as [e|] eqn:He; simpl; [|done].
  destruct (Hexp domain e He) as [t Ht]. simpl in Ht. by rewrite Ht.
Qed.

(** C10. [DebugExpiration] reads the registry and nothing else: it makes
    no call (so it never reads the clock), and leaves the state as it is
    (so it never evicts).  For a domain with an entry it returns the
    stored expiry, also when that entry has expired and the expiry lies in
    the past.  In a state that the package reaches, it returns nil exactly
    when the domain has no entry; and when it returns an expiry before an
    operation and nil after it, the operation was a removal: a
    deactivation without Redis, a deactivation message for the domain, or
    [WithDomain] on the domain. *)
Theorem DebugExpiration_spec {W} (h : handler W) (w : W) (s : State) (domain : string) :
  inv s →
  let r := exec h (DebugExpiration domain s) w in
  trace r = [] ∧ world r = w ∧ final r = s ∧
  (∀ entry, loggers s !! domain = Some entry →
     result r = expiredAt entry ∧
     ((exec h (Expired entry) w).1.1 = true →
      ∃ t, result r = Some t ∧ time.Before t (h time_Now w).1 = true)) ∧
  (result r = None ↔ loggers s !! domain = None) ∧
  (∀ ParseDuration o W' (h' : handler W') w',
     result r ≠ None →
     let s' := final (exec h' (run_op ParseDuration o s) w') in
     result (exec h (DebugExpiration domain s') w) = None →
     removes o domain s).
Proof.
  intros Hinv r. subst r. rewrite exec_DebugExpiration. simpl.
  split; [done|]. split; [done|]. split; [done|].
  pose proof (DebugExpiration_nil s domain (proj2 (proj2 Hinv))) as Hnil.
  split; [|split; [exact Hnil|]].
  - intros entry ->. simpl. split; [done|].
    unfold Expired. destruct (expiredAt entry) as [t|]; simpl; [|done].
    destruct (h time_Now w) as [now w1]. simpl. intros Hpast. by exists t.
  - intros ParseDuration o W' h' w' Hsome.
    rewrite exec_DebugExpiration. simpl. intros Hnone.
    assert (loggers s !! domain ≠ None) as Hpresent by (by rewrite <- Hnil).
    pose proof (always_exec h' _ _ w'
                  (only_removal_removes ParseDuration o domain s Hpresent)) as Hstep.
    pose proof (hoare_exec h' w' _ _ _ s (run_op_inv ParseDuration o) Hinv) as Hinv'.
    simpl in Hstep, Hinv'. apply Hstep.
    by apply (DebugExpiration_nil _ domain (proj2 (proj2 Hinv'))).
Qed.

Lemma DebugExpiration_spec_witness :
  let r := exec scripted (DebugExpiration alice alice_active) (quiet (2 * time.Hour)) in
  final r = alice_active ∧ trace r = [] ∧
  result r = Some (1000 + 5 * time.Minute) ∧
  (exec scripted (Expired {| log := 3%nat; expiredAt := Some (1000 + 5 * time.Minute) |})
     (quiet (2 * time.Hour))).1.1 = true.
Proof.
  pose proof (DebugExpiration_spec scripted (quiet (2 * time.Hour)) alice_active alice
                alice_active_inv) as (Htr & _ & Hfin & Hentry & _).
  split; [exact Hfin|]. split; [exact Htr|].
  split; [|reflexivity].
  exact (proj1 (Hentry {| log := 3%nat; expiredAt := Some (1000 + 5 * time.Minute) |}
                  eq_refl)).
Defined.

(** ** C3: the logger of an activated domain *)


(** [Clone] keeps the sink, the formatter and the level of its argument,
    and gives the copy a new hook map with the same hooks. *)
Lemma Clone_spec (h : logrus.Heap) (in_ : loc) (l : logrus.Logger) :
  logrus.objs h !! in_ = Some l →
  ∃ out h' l',
    Clone in_ h = Some (out, h') ∧
    logrus.objs h' !! out = Some l' ∧
    logrus.Logger_Out l' = logrus.Logger_Out l ∧
    logrus.Logger_Formatter l' = logrus.Logger_Formatter l ∧
    logrus.Logger_Level l' = logrus.Logger_Level l ∧
    logrus.Logger_Hooks l' = S (logrus.next h) ∧
    logrus.hooks_of out h' = default ∅ (logrus.hookmaps h !! logrus.Logger_Hooks l).
Proof.
  intros Hl. unfold Clone. rewrite Hl. eexists _, _, _.
  split; [done|]. simpl. split; [apply lookup_insert_eq|]. simpl.
  do 4 (split; [done|]).
  unfold logrus.hooks_of. simpl. rewrite lookup_insert_eq. simpl.
  rewrite lookup_insert_eq. simpl.
  apply (map_fold_weak_ind (λ r m, r = m)); [done|].
  by intros i x m r _ ->.
Qed.


Lemma configured_heap_ok : heap_ok configured.
Proof. apply (bool_decide_unpack _). by vm_compute. Qed.



(** The same with the library as it is loaded: the formatter of the new
    logger is not the standard logger's, and neither does the new logger
    take the hook of a configured standard logger. *)
Example addDebugDomain_formatter :
  let s := init local_opts logrus.loaded in
  let r := exec scripted (addDebugDomain alice (5 * time.Minute) s) (quiet 1000) in
  logrus.Logger_Formatter <$> logrus.objs (heap (final r)) !! 3%nat = Some 5%nat ∧
  logrus.Logger_Formatter <$> logrus.objs (heap (final r)) !! logrus.std = Some 2%nat.
Proof. by vm_compute. Qed.

Example addDebugDomain_hooks :
  let s := init local_opts configured in
  let r := exec scripted (addDebugDomain alice (5 * time.Minute) s) (quiet 1000) in
  logrus.hooks_of 3%nat (heap (final r)) = ∅ ∧
  logrus.hooks_of logrus.std (heap (final r)) !! logrus.ErrorLevel = Some [audit_hook].
Proof. by vm_compute. Qed.

(** ** C4: entries without expiry *)

(** C4 as worded fails: without Redis, activating a domain for a zero
    duration at time 1000 makes an entry that expires at 1000. *)
Lemma zero_duration_has_expiry :
  let s := init local_opts logrus.loaded in
  let r := exec scripted (AddDebugDomain alice 0 s) (quiet 1000) in
  loggers (final r) !! alice = Some {| log := 3%nat; expiredAt := Some 1000 |} ∧
  ¬ no_expiry (final r) alice.
Proof.
  split; [by vm_compute|].
  intros (entry & H1 & H2). vm_compute in H1. injection H1 as <-. discriminate H2.
Qed.

(** C4, as the code has it.  An entry without expiry is never expired
    (the clock is not even read).  No such entry comes to be: whatever is
    done with the package from an empty registry, every entry has an
    expiry.  Without Redis, activating an absent domain for a zero
    duration makes an entry whose expiry is the clock reading of the
    activation; it is not expired at that reading and is expired at any
    later one. *)
Theorem expiry_always_present {W} (h : handler W) (w : W) (s : State)
    (ParseDuration : string → time.Duration * option error) (ops : list op)
    (o : Options) (heap0 : logrus.Heap) (domain : string) (log0 : loc) :
  exec h (Expired {| log := log0; expiredAt := None |}) w = (false, w, []) ∧
  expiring (final (exec h (run_ops ParseDuration ops (init o heap0)) w)) ∧
  (Redis (opts s) = None → loggers s !! domain = None →
   let now := reading h w s in
   let entry := {| log := logrus.next (heap s); expiredAt := Some now |} in
   loggers (final (exec h (AddDebugDomain domain 0 s) w)) !! domain = Some entry ∧
   ∀ W' (h' : handler W') w',
     (exec h' (Expired entry) w').1.1 = bool_decide (now < (h' time_Now w').1)).
Proof.
  split; [done|]. split.
  - apply (hoare_exec h w expiring (run_ops ParseDuration ops) (λ _, expiring)).
    + apply run_ops_expiring.
    + apply map_Forall_empty.
  - intros Hlocal Habsent now entry.
    destruct (AddDebugDomain_local_absent h w s domain 0 Hlocal Habsent) as (_ & Hl & _).
    split.
    + rewrite Hl, lookup_insert_eq. unfold time.Add. fold now.
      by replace (now + 0) with now by lia.
    + intros W' h' w'. unfold Expired. simpl.
      destruct (h' time_Now w') as [t w1]. simpl. unfold time.Before.
      destruct (Z.ltb_spec now t).
      * by rewrite bool_decide_eq_true_2.
      * rewrite bool_decide_eq_false_2; [done|lia].
Qed.

Lemma expiry_always_present_witness :
  let s := init local_opts logrus.loaded in
  loggers (final (exec scripted (AddDebugDomain alice 0 s) (quiet 1000))) !! alice
    = Some {| log := 3%nat; expiredAt := Some 1000 |} ∧
  expiring (final (exec scripted
                     (run_ops (λ _, (0, None))
                        [DoAdd alice 0; DoWithDomain alice; DoAdd alice time.Hour] s)
                     (quiet 1000))).
Proof.
  pose proof (expiry_always_present scripted (quiet 1000) (init local_opts logrus.loaded)
                (λ _, (0, None))
                [DoAdd alice 0; DoWithDomain alice; DoAdd alice time.Hour]
                local_opts logrus.loaded alice 0%nat) as (_ & Hexp & Hzero).
  split; [exact (proj1 (Hzero eq_refl eq_refl))|exact Hexp].
Defined.

(** ** C5 and C6: publishing through Redis *)

Lemma exec_AddDebugDomain_redis {W} (h : handler W) (w : W) (s : State)
    (cli : UniversalClient) (domain : string) (ttl : time.Duration) :
  Redis (opts s) = Some cli →
  exec h (AddDebugDomain domain ttl s) w =
    let '(err, w1) := h (add_message domain ttl) w in
    match err with
    | Some e => (Some e, s, w1, [ev (add_message domain ttl) (Some e)])
    | None =>
        let '(err, w2) := h (cli_Set (debug_key domain) 0 ttl) w1 in
        (err, s, w2, [ev (add_message domain ttl) None;
                      ev (cli_Set (debug_key domain) 0 ttl) err])
    end.
Proof.
  intros Hcli. unfold AddDebugDomain, bind, get. simpl. rewrite Hcli.
  unfold publishDebug, bind, ask, add_message. simpl.
  destruct (h (cli_Publish debugRedisAddChannel _) w) as [[e|] w1]; simpl; [done|].
  fold (debug_key domain).
  by destruct (h (cli_Set (debug_key domain) 0 ttl) w1) as [err w2].
Qed.

Lemma exec_RemoveDebugDomain_redis {W} (h : handler W) (w : W) (s : State)
    (cli : UniversalClient) (domain : string) :
  Redis (opts s) = Some cli →
  exec h (RemoveDebugDomain domain s) w =
    let '(err, w1) := h (rmv_message domain) w in
    match err with
    | Some e => (Some e, s, w1, [ev (rmv_message domain) (Some e)])
    | None =>
        let '(err, w2) := h (cli_Del (debug_key domain)) w1 in
        (err, s, w2, [ev (rmv_message domain) None;
                      ev (cli_Del (debug_key domain)) err])
    end.
Proof.
  intros Hcli. unfold RemoveDebugDomain, bind, get. simpl. rewrite Hcli.
  unfold publishDebug, bind, ask, rmv_message. simpl.
  destruct (h (cli_Publish debugRedisRmvChannel _) w) as [[e|] w1]; simpl; [done|].
  fold (debug_key domain).
  by destruct (h (cli_Del (debug_key domain)) w1) as [err w2].
Qed.

(** C5. With Redis, [AddDebugDomain] and [RemoveDebugDomain] first
    publish the message and only then write, or delete, the key
    ["debug:" + domain].  When publishing fails the call returns that
    error and makes no other call; when publishing succeeds the call
    returns what writing or deleting the key returns, so an error of that
    step is returned too.  The local registry is not touched. *)
Theorem publish_then_key {W} (h : handler W) (w : W) (s : State)
    (cli : UniversalClient) (domain : string) (ttl : time.Duration) :
  Redis (opts s) = Some cli →
  let add := exec h (AddDebugDomain domain ttl s) w in
  let rmv := exec h (RemoveDebugDomain domain s) w in
  let key := debugRedisPrefix +:+ domain in
  final add = s ∧ final rmv = s ∧
  match (h (add_message domain ttl) w).1 with
  | Some e => result add = Some e ∧ trace add = [add_message domain ttl]
  | None =>
      trace add = [add_message domain ttl; cli_Set key 0 ttl] ∧
      result add = (h (cli_Set key 0 ttl) (h (add_message domain ttl) w).2).1
  end ∧
  match (h (rmv_message domain) w).1 with
  | Some e => result rmv = Some e ∧ trace rmv = [rmv_message domain]
  | None =>
      trace rmv = [rmv_message domain; cli_Del key] ∧
      result rmv = (h (cli_Del key) (h (rmv_message domain) w).2).1
  end.
Proof.
  intros Hcli add rmv key. subst add rmv key.
  rewrite (exec_AddDebugDomain_redis h w s cli), (exec_RemoveDebugDomain_redis h w s cli)
    by done.
  fold (debug_key domain).
  destruct (h (add_message domain ttl) w) as [[e|] w1]; simpl;
    destruct (h (rmv_message domain) w) as [[e'|] w1']; simpl;
    repeat match goal with
           | |- context [h (cli_Set ?k ?v ?t) ?x] => destruct (h (cli_Set k v t) x)
           | |- context [h (cli_Del ?k) ?x] => destruct (h (cli_Del k) x)
           end; simpl; done.
Qed.

Lemma publish_then_key_witness :
  let s := init redis_opts logrus.loaded in
  let failed := exec scripted (AddDebugDomain alice (5 * time.Minute) s) (no_publish 1000) in
  let unwritten := exec scripted (AddDebugDomain alice (5 * time.Minute) s) (no_write 1000) in
  (result failed = Some (Err "publish failed") ∧
   trace failed = [cli_Publish "add:log-debug" "alice.example/5m0s"]) ∧
  (trace unwritten = [cli_Publish "add:log-debug" "alice.example/5m0s";
                      cli_Set "debug:alice.example" 0 (5 * time.Minute)] ∧
   result unwritten = Some (Err "set failed")).
Proof.
  split.
  - exact (proj1 (proj2 (proj2 (publish_then_key scripted (no_publish 1000)
                   (init redis_opts logrus.loaded) (Client 1) alice (5 * time.Minute)
                   eq_refl)))).
  - exact (proj1 (proj2 (proj2 (publish_then_key scripted (no_write 1000)
                   (init redis_opts logrus.loaded) (Client 1) alice (5 * time.Minute)
                   eq_refl)))).
Defined.

(** C6 as worded fails: the message of a deactivation ends in "0s", the
    zero duration as [Duration.String] writes it, not in an empty
    segment. *)
Lemma deactivation_payload_0s :
  let s := init redis_opts logrus.loaded in
  let r := exec scripted (RemoveDebugDomain alice s) (quiet 1000) in
  head (trace r) = Some (cli_Publish "rmv:log-debug" "alice.example/0s") ∧
  head (trace r) ≠ Some (cli_Publish "rmv:log-debug" "alice.example/").
Proof. split; [by vm_compute|]. vm_compute. discriminate. Qed.

(** C6, as the code has it.  With Redis, the first call of an activation
    publishes [domain + "/" + ttl.String()] on "add:log-debug", and the
    first call of a deactivation publishes [domain + "/0s"] on
    "rmv:log-debug".  The receiver of a deactivation message does not
    read the duration: what it does is the same whatever parser of
    durations it is given. *)
Theorem published_payloads {W} (h : handler W) (w : W) (s : State)
    (cli : UniversalClient) (domain : string) (ttl : time.Duration) :
  Redis (opts s) = Some cli →
  head (trace (exec h (AddDebugDomain domain ttl s) w))
    = Some (cli_Publish "add:log-debug" (domain +:+ "/" +:+ time.Duration_String ttl)) ∧
  head (trace (exec h (RemoveDebugDomain domain s) w))
    = Some (cli_Publish "rmv:log-debug" (domain +:+ "/0s")) ∧
  ∀ parse parse' payload s',
    receive parse {| Channel := "rmv:log-debug"; Payload := payload |} s'
    = receive parse' {| Channel := "rmv:log-debug"; Payload := payload |} s'.
Proof.
  intros Hcli.
  rewrite (exec_AddDebugDomain_redis h w s cli), (exec_RemoveDebugDomain_redis h w s cli)
    by done.
  split; [|split].
  - destruct (h (add_message domain ttl) w) as [[e|] w1]; simpl; [done|].
    by destruct (h (cli_Set (debug_key domain) 0 ttl) w1).
  - destruct (h (rmv_message domain) w) as [[e|] w1]; simpl; [done|].
    by destruct (h (cli_Del (debug_key domain)) w1).
  - intros parse parse' payload s'. unfold receive. simpl.
    by destruct (gostrings.Split payload "/" !! 0%nat).
Qed.

Lemma published_payloads_witness :
  let s := init redis_opts logrus.loaded in
  head (trace (exec scripted (AddDebugDomain alice (90 * time.Second) s) (quiet 1000)))
    = Some (cli_Publish "add:log-debug" "alice.example/1m30s") ∧
  head (trace (exec scripted (RemoveDebugDomain alice s) (quiet 1000)))
    = Some (cli_Publish "rmv:log-debug" "alice.example/0s").
Proof.
  pose proof (published_payloads scripted (quiet 1000) (init redis_opts logrus.loaded)
                (Client 1) alice (90 * time.Second) eq_refl) as (Hadd & Hrmv & _).
  split; [exact Hadd|exact Hrmv].
Defined.

(** ** C7: messages from the subscription *)

Example ParseDuration_whole_5m0s :
  ParseDuration_whole "5m0s" = (5 * time.Minute, None).
Proof. by vm_compute. Qed.

Example ParseDuration_whole_sum :
  ParseDuration_whole "-1h30m250ms" = (- (90 * time.Minute + 250 * time.Millisecond), None).
Proof. by vm_compute. Qed.

Example ParseDuration_whole_bad :
  ParseDuration_whole "soon" = (0, Some (Err "time: invalid duration")) ∧
  ParseDuration_whole "" = (0, Some (Err "time: invalid duration")) ∧
  ParseDuration_whole "12" = (0, Some (Err "time: invalid duration")).
Proof. by vm_compute. Qed.


Lemma Split_first (s : string) (sep : ascii) :
  ∃ p ps, gostrings.Split s sep = p :: ps.
Proof.
  induction s as [|c s' (p & ps & IH)]; simpl; [by eexists _, _|].
  destruct (Ascii.eqb c sep); [by eexists _, _|].
  rewrite IH. by eexists _, _.
Qed.

Section subscription.

(** [time.ParseDuration] returns the zero duration with every error. *)
Variable ParseDuration : string → time.Duration * option error.
Hypothesis ParseDuration_zero_on_error :
  ∀ s e, (ParseDuration s).2 = Some e → (ParseDuration s).1 = 0.


Lemma exec_receive {W} (h : handler W) (w : W) (s : State) (msg : Message) :
  ∃ domain,
    message_domain msg = Some domain ∧
    exec h (receive ParseDuration msg s) w =
      if String.eqb (Channel msg) debugRedisAddChannel then
        let '(_, s', w', tr) :=
          exec h (addDebugDomain domain (message_ttl ParseDuration msg) s) w in
        (Some tt, s', w', tr)
      else if String.eqb (Channel msg) debugRedisRmvChannel then
        (Some tt, set_loggers (delete domain) s, w, [])
      else (Some tt, s, w, []).
Proof.
  unfold receive, message_domain, message_ttl.
  destruct (Split_first (Payload msg) "/") as (p & ps & Hsplit). rewrite Hsplit.
  exists p. split; [done|].
  change ((p :: ps) !! 0%nat) with (Some p). cbv beta iota.
  destruct (String.eqb (Channel msg) debugRedisAddChannel).
  - assert ((if (2 <=? length (p :: ps))%nat
             then p0 ← (p :: ps) !! 1%nat; Some (ParseDuration p0).1
             else Some 0)
            = Some match ps !! 0%nat with
                   | Some p0 => (ParseDuration p0).1
                   | None => 0
                   end) as ->.
    { destruct ps as [|p0 ps']; simpl; done. }
    rewrite exec_bind.
    destruct (exec h (addDebugDomain p _ s) w) as [[[[] s'] w'] tr]. simpl.
    by rewrite app_nil_r.
  - by destruct (String.eqb (Channel msg) debugRedisRmvChannel).
Qed.


End subscription.


(** ** C8: the load at start *)

Lemma addDebugDomain_facts {W} (h : handler W) (w : W) (s : State)
    (domain : string) (ttl : time.Duration) :
  let r := exec h (addDebugDomain domain ttl s) w in
  loggers (final r) !! domain ≠ None ∧
  (∀ d, loggers s !! d ≠ None → loggers (final r) !! d = loggers s !! d) ∧
  (∀ d e, loggers s !! d = None → loggers (final r) !! d = Some e →
     d = domain ∧
     ∃ now, ev time_Now now ∈ events r ∧ expiredAt e = Some (time.Add now ttl)) ∧
  asked_keys (events r) = [].
Proof.
  intros r. subst r. destruct (loggers s !! domain) as [e0|] eqn:Hdom.
  - rewrite exec_addDebugDomain_present by congruence. simpl.
    split; [congruence|]. split; [done|]. split; [|done].
    intros d e H1 H2. congruence.
  - rewrite exec_addDebugDomain_absent by done.
    assert (∀ syslog now d e,
              loggers s !! d = None →
              loggers (activated s domain syslog (time.Add now ttl)) !! d = Some e →
              d = domain ∧ expiredAt e = Some (time.Add now ttl)) as Hnew.
    { intros syslog now d e Hd. simpl.
      destruct (decide (domain = d)) as [->|Hne].
      - rewrite lookup_insert_eq. by intros [= <-].
      - rewrite lookup_insert_ne by done. congruence. }
    assert (∀ syslog now d,
              loggers s !! d ≠ None →
              loggers (activated s domain syslog (time.Add now ttl)) !! d
              = loggers s !! d) as Hold.
    { intros syslog now d Hd. simpl. rewrite lookup_insert_ne; [done|congruence]. }
    destruct (Syslog (opts s)).
    + destruct (h syslogHook w) as [hr w1], (h time_Now w1) as [now w2]. simpl.
      split; [by rewrite lookup_insert_eq|].
      split; [exact (Hold (hook_of hr) now)|]. split; [|done].
      intros d e Hd He. destruct (Hnew (hook_of hr) now _ _ Hd He) as [Heq Hexp]. subst d.
      split; [done|]. exists now. split; [by repeat constructor|done].
    + destruct (h time_Now w) as [now w1]. simpl.
      split; [by rewrite lookup_insert_eq|].
      split; [exact (Hold None now)|]. split; [|done].
      intros d e Hd He. destruct (Hnew None now _ _ Hd He) as [Heq Hexp]. subst d.
      split; [done|]. exists now. split; [by repeat constructor|done].
Qed.

Lemma loadDebug_keys_cons (key : string) (rest : list string) :
  loadDebug_keys (key :: rest) =
    bind (ask (cli_TTL key))
         (λ r, match r with
               | inr _ => loadDebug_keys rest
               | inl ttl =>
                   bind (addDebugDomain (gostrings.TrimPrefix key debugRedisPrefix) ttl)
                        (λ _, loadDebug_keys rest)
               end).
Proof. reflexivity. Qed.

Lemma loadDebug_keys_spec {W} (h : handler W) (keys : list string) (s : State) (w : W) :
  let r := exec h (loadDebug_keys keys s) w in
  asked_keys (events r) = keys ∧
  (∀ key ttl, ttl_found key ttl ∈ events r →
     loggers (final r) !! gostrings.TrimPrefix key debugRedisPrefix ≠ None) ∧
  (∀ d, loggers s !! d ≠ None → loggers (final r) !! d = loggers s !! d) ∧
  (∀ d e, loggers s !! d = None → loggers (final r) !! d = Some e →
     ∃ key ttl now,
       ttl_found key ttl ∈ events r ∧ ev time_Now now ∈ events r ∧
       d = gostrings.TrimPrefix key debugRedisPrefix ∧
       expiredAt e = Some (time.Add now ttl)).
Proof.
  revert s w. induction keys as [|key rest IH]; intros s w r; subst r.
  { simpl. split; [done|]. split; [intros ? ? H; by apply elem_of_nil in H|].
    split; [done|]. intros d e H1 H2. congruence. }
  rewrite loadDebug_keys_cons, exec_ask_bind.
  destruct (h (cli_TTL key) w) as [[ttl|err] w1].
  - rewrite exec_bind.
    pose proof (addDebugDomain_facts h w1 s
                  (gostrings.TrimPrefix key debugRedisPrefix) ttl) as Hadd.
    destruct (exec h (addDebugDomain _ ttl s) w1) as [[[[] s1] w2] t1].
    simpl in Hadd. destruct Hadd as (Hin & Hkeep & Hnew & Hasked).
    specialize (IH s1 w2).
    destruct (exec h (loadDebug_keys rest s1) w2) as [[[[] s2] w3] t2].
    simpl in IH. destruct IH as (IHasked & IHfound & IHkeep & IHnew). simpl.
    split; [|split; [|split]].
    + unfold asked_keys in *. simpl. rewrite omap_app, Hasked, IHasked. done.
    + intros k t Hk. apply elem_of_cons in Hk as [Hk|Hk].
      * injection Hk as -> ->. by rewrite IHkeep.
      * apply elem_of_app in Hk as [Hk|Hk]; [|by apply (IHfound k t)].
        exfalso. assert (asked_keys t1 ≠ []) as Hne; [|done].
        unfold asked_keys. intros Hnil.
        assert (k ∈ omap (λ e : event, match e.1 with
                                       | cli_TTL key => Some key
                                       | _ => None
                                       end) t1) as Hmem.
        { apply list_elem_of_omap. by exists (ttl_found k t). }
        rewrite Hnil in Hmem. by apply elem_of_nil in Hmem.
    + intros d Hd. rewrite IHkeep; [by apply Hkeep|]. by rewrite Hkeep.
    + intros d e Hd He.
      destruct (loggers s1 !! d) as [e1|] eqn:Hd1.
      * rewrite IHkeep, Hd1 in He by congruence. injection He as ->.
        destruct (Hnew d e Hd Hd1) as (-> & now & Hnow & Hexp).
        exists key, ttl, now. unfold ttl_found.
        split; [apply elem_of_cons; by left|].
        split; [apply elem_of_cons; right; apply elem_of_app; by left|done].
      * destruct (IHnew d e Hd1 He) as (k & t & now & H1 & H2 & H3 & H4).
        exists k, t, now.
        split; [apply elem_of_cons; right; apply elem_of_app; by right|].
        split; [apply elem_of_cons; right; apply elem_of_app; by right|done].
  - specialize (IH s w1).
    destruct (exec h (loadDebug_keys rest s) w1) as [[[[] s2] w3] t2].
    simpl in IH. destruct IH as (IHasked & IHfound & IHkeep & IHnew). simpl.
    split; [|split; [|split]].
    + unfold asked_keys in *. simpl. by rewrite IHasked.
    + intros k t Hk. apply elem_of_cons in Hk as [Hk|Hk]; [done|].
      by apply (IHfound k t).
    + done.
    + intros d e Hd He.
      destruct (IHnew d e Hd He) as (k & t & now & H1 & H2 & H3 & H4).
      exists k, t, now.
      split; [apply elem_of_cons; by right|].
      split; [apply elem_of_cons; by right|done].
Qed.

(** C8. [loadDebug] first lists the keys matching "debug:*".  When the
    listing fails it stops there: it makes no other call, leaves the
    registry as it is, and returns nothing to its caller.  Otherwise it
    asks the time to live of every listed key, in order, failures or not;
    the domain of every key whose time to live was found has an entry at
    the end; the entries that were there stay as they were; and every
    new entry belongs to a key whose time to live was found, with expiry a
    clock reading of the run plus that time to live, so a key whose time
    to live cannot be read adds nothing. *)
Theorem loadDebug_spec {W} (h : handler W) (w : W) (s : State) (cli : UniversalClient) :
  let r := exec h (loadDebug cli s) w in
  let listing := (h (cli_Keys "debug:*") w).1 in
  head (events r) = Some (ev (cli_Keys "debug:*") listing) ∧
  match listing with
  | inr _ => final r = s ∧ trace r = [cli_Keys "debug:*"]
  | inl keys =>
      asked_keys (events r) = keys ∧
      (∀ key ttl, ttl_found key ttl ∈ events r →
         loggers (final r) !! gostrings.TrimPrefix key "debug:" ≠ None) ∧
      (∀ d, loggers s !! d ≠ None → loggers (final r) !! d = loggers s !! d) ∧
      (∀ d e, loggers s !! d = None → loggers (final r) !! d = Some e →
         ∃ key ttl now,
           ttl_found key ttl ∈ events r ∧ ev time_Now now ∈ events r ∧
           d = gostrings.TrimPrefix key "debug:" ∧
           expiredAt e = Some (time.Add now ttl))
  end.
Proof.
  intros r listing. subst r listing. unfold loadDebug. rewrite exec_ask_bind.
  change (debugRedisPrefix +:+ "*") with "debug:*".
  destruct (h (cli_Keys "debug:*") w) as [[keys|err] w1]; [|done].
  pose proof (loadDebug_keys_spec h keys s w1) as Hkeys.
  destruct (exec h (loadDebug_keys keys s) w1) as [[[[] s1] w2] t].
  simpl in Hkeys. destruct Hkeys as (Hasked & Hfound & Hkeep & Hnew). simpl.
  split; [done|]. split; [done|]. split; [|split; [done|]].
  - intros key ttl Hk. apply elem_of_cons in Hk as [Hk|Hk]; [done|].
    by apply (Hfound key ttl).
  - intros d e Hd He.
    destruct (Hnew d e Hd He) as (k & t' & now & H1 & H2 & H3 & H4).
    exists k, t', now.
    split; [apply elem_of_cons; by right|].
    split; [apply elem_of_cons; by right|done].
Qed.

(** Three keys, the second of which cannot be read: the first and the
    third are registered for thirty seconds from now. *)
Example loadDebug_three_keys :
  let r := exec scripted (loadDebug (Client 1) (init redis_opts logrus.loaded))
                (three_keys 1000) in
  trace r = [cli_Keys "debug:*"; cli_TTL "debug:alice.example"; time_Now;
             cli_TTL "debug:bob.example"; cli_TTL "debug:carol.example"; time_Now] ∧
  loggers (final r) !! "alice.example"
    = Some {| log := 3%nat; expiredAt := Some (1000 + 30 * time.Second) |} ∧
  loggers (final r) !! "bob.example" = None ∧
  loggers (final r) !! "carol.example"
    = Some {| log := 6%nat; expiredAt := Some (1000 + 30 * time.Second) |}.
Proof. by vm_compute. Qed.

Example loadDebug_no_keys :
  let r := exec scripted (loadDebug (Client 1) (init redis_opts logrus.loaded))
                (no_keys 1000) in
  trace r = [cli_Keys "debug:*"] ∧ final r = init redis_opts logrus.loaded.
Proof. by vm_compute. Qed.


(* ===================================================================== *)
(** * More of logger.go *)
(* ===================================================================== *)

(** ** [Init] *)

Lemma set_Level_heap_ok (l : loc) (lvl : logrus.Level) (h : logrus.Heap) :
  heap_ok h → heap_ok (logrus.set_Level l lvl h).
Proof.
  intros [Hobjs Hmaps]. split; simpl; [|done].
  intros i x Hx. apply lookup_alter_Some in Hx as [(Hi & y & Hy & Hx)|[_ Hx]].
  - subst. simpl. exact (Hobjs i y Hy).
  - exact (Hobjs i x Hx).
Qed.

Lemma set_Out_heap_ok (l : loc) (out : logrus.Writer) (h : logrus.Heap) :
  heap_ok h → heap_ok (logrus.set_Out l out h).
Proof.
  intros [Hobjs Hmaps]. split; simpl; [|done].
  intros i x Hx. apply lookup_alter_Some in Hx as [(Hi & y & Hy & Hx)|[_ Hx]].
  - subst. simpl. exact (Hobjs i y Hy).
  - exact (Hobjs i x Hx).
Qed.

Lemma Hooks_Add_heap_ok (l : loc) (hook : logrus.Hook) (h : logrus.Heap) :
  heap_ok h → heap_ok (logrus.Hooks_Add l hook h).
Proof.
  intros [Hobjs Hmaps]. unfold logrus.Hooks_Add.
  destruct (logrus.objs h !! l) as [x|]; [|done]. split; simpl; [done|].
  intros i m Hm. apply lookup_alter_Some in Hm as [(Hi & y & Hy & Hm)|[_ Hm]].
  - exact (Hmaps i y Hy).
  - exact (Hmaps i m Hm).
Qed.

Lemma hooks_of_set_Level (l l' : loc) (lvl : logrus.Level) (h : logrus.Heap) :
  logrus.hooks_of l' (logrus.set_Level l lvl h) = logrus.hooks_of l' h.
Proof.
  unfold logrus.hooks_of, logrus.set_Level. simpl.
  destruct (decide (l = l')) as [->|Hne].
  - rewrite lookup_alter_eq. by destruct (logrus.objs h !! l').
  - by rewrite lookup_alter_ne.
Qed.

Lemma std_fields_set_Level (lvl : logrus.Level) (h : logrus.Heap) :
  logrus.Logger_Out <$> logrus.objs (logrus.set_Level logrus.std lvl h) !! logrus.std
    = logrus.Logger_Out <$> logrus.objs h !! logrus.std ∧
  logrus.Logger_Level <$> logrus.objs (logrus.set_Level logrus.std lvl h) !! logrus.std
    = (λ _, lvl) <$> logrus.objs h !! logrus.std.
Proof.
  unfold logrus.set_Level. simpl. rewrite lookup_alter_eq.
  by destruct (logrus.objs h !! logrus.std).
Qed.

(** X1. When [Init] does not return nil, it has installed no options,
    started no goroutine and touched neither the registry, the formatters,
    nor the hooks and the output of the standard logger.  A level that
    does not parse is returned as the error, with nothing changed and no
    call made.  Past the parsing, the standard logger is already at the
    new level: [Init] then fails only on the error of [syslogHook()],
    which it returns, or, without syslog, by the panic of the type
    assertion in a development release at debug level. *)
Theorem Init_failure {W} (h : handler W) (w : W)
    (ParseLevel : string → logrus.Level + error) (IsDevRelease : bool)
    (opt : Options) (p : Process) :
  let r := exec h (Init ParseLevel IsDevRelease opt p) w in
  let h0 := heap (vars p) in
  let h1 := heap (vars (process r)) in
  returned r ≠ Some None →
  opts (vars (process r)) = opts (vars p) ∧
  loggers (vars (process r)) = loggers (vars p) ∧
  started (process r) = started p ∧
  formatters (process r) = formatters p ∧
  logrus.hooks_of logrus.std h1 = logrus.hooks_of logrus.std h0 ∧
  logrus.Logger_Out <$> logrus.objs h1 !! logrus.std
    = logrus.Logger_Out <$> logrus.objs h0 !! logrus.std ∧
  match ParseLevel (level_name opt) with
  | inr err => returned r = Some (Some err) ∧ process r = p ∧ calls r = []
  | inl logLevel =>
      logrus.Logger_Level <$> logrus.objs h1 !! logrus.std
        = (λ _, logLevel) <$> logrus.objs h0 !! logrus.std ∧
      if Syslog opt
      then ∃ err, (h syslogHook w).1 = inr err ∧ returned r = Some (Some err)
      else returned r = None ∧ IsDevRelease = true ∧ logLevel = logrus.DebugLevel
  end.
Proof.
  intros r h0 h1. subst r h0 h1. unfold Init.
  destruct (ParseLevel (level_name opt)) as [logLevel|err]; [|done].
  pose proof (hooks_of_set_Level logrus.std logrus.std logLevel (heap (vars p))) as Hhooks.
  pose proof (std_fields_set_Level logLevel (heap (vars p))) as [Hout Hlvl].
  destruct (Syslog opt).
  - simpl. destruct (h syslogHook w) as [[hook|err] w1]; simpl; [done|].
    intros _. repeat (split; [done|]). by exists err.
  - destruct IsDevRelease; simpl.
    + destruct (bool_decide (logLevel = logrus.DebugLevel)) eqn:Hdbg; simpl; [|done].
      apply bool_decide_eq_true_1 in Hdbg.
      destruct (std_TextFormatter _); simpl; [done|].
      intros _. repeat (split; [done|]). done.
    + done.
Qed.

Lemma Init_failure_witness :
  let r := exec scripted
             (Init ParseLevel_names false
                   {| Syslog := false; Level := "verbose"; Redis := Some (Client 1) |}
                   fresh_process) (quiet 0) in
  returned r = Some (Some (Err "not a valid logrus Level")) ∧
  process r = fresh_process ∧ calls r = [].
Proof.
  assert (returned (exec scripted
             (Init ParseLevel_names false
                   {| Syslog := false; Level := "verbose"; Redis := Some (Client 1) |}
                   fresh_process) (quiet 0)) ≠ Some None) as Hfail.
  { by vm_compute. }
  exact (proj2 (proj2 (proj2 (proj2 (proj2 (proj2
           (Init_failure scripted (quiet 0) ParseLevel_names false
              {| Syslog := false; Level := "verbose"; Redis := Some (Client 1) |}
              fresh_process Hfail))))))).
Defined.

Lemma hooks_of_set_Out (l l' : loc) (out : logrus.Writer) (h : logrus.Heap) :
  logrus.hooks_of l' (logrus.set_Out l out h) = logrus.hooks_of l' h.
Proof.
  unfold logrus.hooks_of, logrus.set_Out. simpl.
  destruct (decide (l = l')) as [->|Hne].
  - rewrite lookup_alter_eq. by destruct (logrus.objs h !! l').
  - by rewrite lookup_alter_ne.
Qed.

Lemma hooks_of_Hooks_Add (l : loc) (hook : logrus.Hook) (h : logrus.Heap)
    (x : logrus.Logger) :
  logrus.objs h !! l = Some x →
  is_Some (logrus.hookmaps h !! logrus.Logger_Hooks x) →
  logrus.hooks_of l (logrus.Hooks_Add l hook h)
    = logrus.LevelHooks_Add hook (logrus.hooks_of l h).
Proof.
  intros Hx [m Hm]. unfold logrus.hooks_of, logrus.Hooks_Add. rewrite Hx. simpl.
  rewrite Hx, lookup_alter_eq, Hm. done.
Qed.

Lemma std_loaded_set_Level (lvl : logrus.Level) (h : logrus.Heap) :
  std_loaded h →
  ∃ l, logrus.objs h !! logrus.std = Some l ∧
       logrus.objs (logrus.set_Level logrus.std lvl h) !! logrus.std
         = Some {| logrus.Logger_Out := logrus.Logger_Out l;
                   logrus.Logger_Hooks := logrus.Logger_Hooks l;
                   logrus.Logger_Formatter := logrus.Logger_Formatter l;
                   logrus.Logger_Level := lvl |} ∧
       is_Some (logrus.hookmaps h !! logrus.Logger_Hooks l).
Proof.
  intros (l & Hl & Hm). exists l. split; [done|]. split; [|done].
  unfold logrus.set_Level. simpl. by rewrite lookup_alter_eq, Hl.
Qed.

Lemma exec_Call {A W} (h : handler W) (c : call) (k : resp c → prog A) (w : W) :
  exec h (Call c k) w =
    let '(r, w') := h c w in
    let '(a, w'', tr) := exec h (k r) w' in
    (a, w'', ev c r :: tr).
Proof. reflexivity. Qed.

Lemma exec_Init_finish {W} (h : handler W) (w : W) (opt : Options) (q : Process) :
  exec h (Init_finish opt q) w =
    (Some None,
     {| vars := set_opts opt (vars q); formatters := formatters q;
        started := (started q ++ goroutines_of opt)%list |},
     w, []).
Proof.
  unfold Init_finish, goroutines_of. destruct (Redis opt); simpl; [done|].
  by rewrite app_nil_r.
Qed.

(** X2. Called before any activation, on a well-formed library state,
    an [Init] that returns nil has parsed the level ("info" when the
    options name none) and set the standard logger to it; has installed
    the options; has started the subscription and the load exactly when
    the options hold a Redis client; and leaves a state in which the
    invariants of the package hold.  With the syslog option the standard
    logger has got the hook of [syslogHook()] after the hooks it had, and
    writes to the discard writer; without it, output and hooks are as
    before, and in a development release at debug level the standard
    logger's text formatter has got the RFC 3339 timestamp format with
    nanoseconds. *)
Theorem Init_success {W} (h : handler W) (w : W)
    (ParseLevel : string → logrus.Level + error) (IsDevRelease : bool)
    (opt : Options) (p : Process) :
  heap_ok (heap (vars p)) → std_loaded (heap (vars p)) → loggers (vars p) = ∅ →
  let r := exec h (Init ParseLevel IsDevRelease opt p) w in
  let h0 := heap (vars p) in
  let h1 := heap (vars (process r)) in
  returned r = Some None →
  ∃ logLevel,
    ParseLevel (level_name opt) = inl logLevel ∧
    opts (vars (process r)) = opt ∧
    loggers (vars (process r)) = ∅ ∧
    inv (vars (process r)) ∧
    logrus.Logger_Level <$> logrus.objs h1 !! logrus.std = Some logLevel ∧
    started (process r) = (started p ++ goroutines_of opt)%list ∧
    if Syslog opt then
      ∃ hook,
        (h syslogHook w).1 = inl hook ∧
        logrus.Logger_Out <$> logrus.objs h1 !! logrus.std = Some logrus.Discard ∧
        logrus.hooks_of logrus.std h1
          = logrus.LevelHooks_Add hook (logrus.hooks_of logrus.std h0) ∧
        formatters (process r) = formatters p
    else
      logrus.Logger_Out <$> logrus.objs h1 !! logrus.std
        = logrus.Logger_Out <$> logrus.objs h0 !! logrus.std ∧
      logrus.hooks_of logrus.std h1 = logrus.hooks_of logrus.std h0 ∧
      if IsDevRelease && bool_decide (logLevel = logrus.DebugLevel) then
        ∃ f old,
          logrus.Logger_Formatter <$> logrus.objs h0 !! logrus.std = Some f ∧
          formatters p !! f = Some (TextFormatter old) ∧
          formatters (process r) = <[f := TextFormatter RFC3339Nano]> (formatters p)
      else formatters (process r) = formatters p.
Proof.
  intros Hok Hstd Hempty r h0 h1. subst r h0 h1. unfold Init.
  destruct (ParseLevel (level_name opt)) as [logLevel|err] eqn:Hparse; [|done].
  destruct (std_loaded_set_Level logLevel _ Hstd) as (l & Hl & Hl1 & Hm).
  pose proof (set_Level_heap_ok logrus.std logLevel _ Hok) as Hok1.
  pose proof (std_fields_set_Level logLevel (heap (vars p))) as [Hout Hlvl].
  pose proof (hooks_of_set_Level logrus.std logrus.std logLevel (heap (vars p)))
    as Hhooks.
  rewrite Hl in Hlvl, Hout. simpl in Hlvl, Hout.
  assert (∀ hp : logrus.Heap, heap_ok hp →
            inv {| opts := opt; loggers := loggers (vars p); heap := hp |}) as Hinv.
  { intros hp Hh. split; [done|]. unfold debug_entries, expiring. simpl.
    rewrite Hempty. split; apply map_Forall_empty. }
  destruct (Syslog opt).
  - rewrite exec_Call.
    destruct (h syslogHook w) as [[hook|err] w1] eqn:Hhook; [|done].
    rewrite exec_Init_finish. cbn [returned process fst snd vars formatters started].
    intros _. exists logLevel. split; [done|]. split; [done|]. split; [done|].
    split; [apply Hinv; by apply set_Out_heap_ok, Hooks_Add_heap_ok|].
    assert (logrus.objs (logrus.set_Out logrus.std logrus.Discard
                           (logrus.Hooks_Add logrus.std hook
                              (logrus.set_Level logrus.std logLevel (heap (vars p)))))
            !! logrus.std
            = Some {| logrus.Logger_Out := logrus.Discard;
                      logrus.Logger_Hooks := logrus.Logger_Hooks l;
                      logrus.Logger_Formatter := logrus.Logger_Formatter l;
                      logrus.Logger_Level := logLevel |}) as Hfinal.
    { unfold logrus.set_Out, logrus.Hooks_Add. rewrite Hl1. cbn [logrus.objs].
      by rewrite lookup_alter_eq, Hl1. }
    cbn [set_opts set_vars set_heap heap vars]. rewrite Hfinal.
    split; [done|]. split; [done|].
    exists hook. split; [done|]. split; [done|]. split; [|done].
    rewrite hooks_of_set_Out.
    rewrite (hooks_of_Hooks_Add _ _ _ _ Hl1 Hm). by rewrite Hhooks.
  - destruct (IsDevRelease && bool_decide (logLevel = logrus.DebugLevel)) eqn:Hdev.
    + destruct (std_TextFormatter _) as [f|] eqn:Hf; [|done].
      rewrite exec_Init_finish. cbn [returned process fst snd vars formatters started].
      intros _. exists logLevel. split; [done|]. split; [done|]. split; [done|].
      split; [by apply Hinv|].
      cbn [set_opts set_vars set_heap heap vars started formatters].
      rewrite Hdev, Hl.
      split; [exact Hlvl|]. split; [done|]. split; [exact Hout|].
      split; [exact Hhooks|].
      unfold std_TextFormatter in Hf. cbn [set_vars set_heap heap vars formatters] in Hf.
      rewrite Hl1 in Hf. simpl in Hf.
      destruct (formatters p !! logrus.Logger_Formatter l) as [[old|]|] eqn:Hold;
        simpl in Hf; [|done|done].
      injection Hf as <-. by exists (logrus.Logger_Formatter l), old.
    + rewrite exec_Init_finish. cbn [returned process fst snd vars formatters started].
      intros _. exists logLevel. split; [done|]. split; [done|]. split; [done|].
      split; [by apply Hinv|].
      cbn [set_opts set_vars set_heap heap vars started formatters].
      rewrite Hdev, Hl.
      split; [exact Hlvl|]. split; [done|]. split; [exact Hout|].
      split; [exact Hhooks|done].
Qed.

Lemma fresh_process_std_loaded : std_loaded (heap (vars fresh_process)).
Proof. eexists. split; [reflexivity|]. by eexists. Qed.

Lemma Init_success_witness :
  let opt := {| Syslog := false; Level := "debug"; Redis := Some (Client 1) |} in
  let r := exec scripted (Init ParseLevel_names true opt fresh_process) (quiet 0) in
  opts (vars (process r)) = opt ∧
  started (process r) = [go_subscribeLoggersDebug (Client 1); go_loadDebug (Client 1)] ∧
  formatters (process r) = {[ 2%nat := TextFormatter RFC3339Nano ]}.
Proof.
  destruct (Init_success scripted (quiet 0) ParseLevel_names true
              {| Syslog := false; Level := "debug"; Redis := Some (Client 1) |}
              fresh_process loaded_heap_ok fresh_process_std_loaded eq_refl eq_refl)
    as (logLevel & Hparse & Hopts & _ & _ & _ & Hstarted & _ & _ & Hfmt).
  split; [exact Hopts|]. split; [exact Hstarted|].
  injection Hparse as <-. destruct Hfmt as (f & old & Hf & _ & ->).
  injection Hf as <-. by vm_compute.
Defined.

(** An [Init] that returns nil has installed the options and has left
    the registry as it was. *)
Lemma Init_installs {W} (h : handler W) (w : W)
    (ParseLevel : string → logrus.Level + error) (IsDevRelease : bool)
    (opt : Options) (p : Process) :
  returned (exec h (Init ParseLevel IsDevRelease opt p) w) = Some None →
  opts (vars (process (exec h (Init ParseLevel IsDevRelease opt p) w))) = opt ∧
  loggers (vars (process (exec h (Init ParseLevel IsDevRelease opt p) w)))
    = loggers (vars p).
Proof.
  unfold Init. destruct (ParseLevel (level_name opt)) as [logLevel|err]; [|done].
  destruct (Syslog opt).
  - rewrite exec_Call. destruct (h syslogHook w) as [[hook|err] w1]; [|done].
    by rewrite exec_Init_finish.
  - destruct (IsDevRelease && bool_decide (logLevel = logrus.DebugLevel)).
    + destruct (std_TextFormatter _); [|done]. by rewrite exec_Init_finish.
    + by rewrite exec_Init_finish.
Qed.

(** X3. The options that [Init] installs decide what a later
    [AddDebugDomain] does.  After an [Init] that returned nil on an empty
    registry: with a Redis client in the options, the activation publishes
    its message first and leaves the local registry empty; without one, it
    returns nil and registers the domain until the clock reading plus the
    duration, with a logger at debug level that writes to the discard
    writer when the options ask for syslog and the hook can be made, and
    to standard error otherwise. *)
Theorem Init_then_AddDebugDomain {W W'} (h : handler W) (w : W)
    (ParseLevel : string → logrus.Level + error) (IsDevRelease : bool)
    (opt : Options) (p : Process) (h2 : handler W') (w2 : W')
    (domain : string) (ttl : time.Duration) :
  loggers (vars p) = ∅ →
  let r := exec h (Init ParseLevel IsDevRelease opt p) w in
  returned r = Some None →
  let s := vars (process r) in
  let a := exec h2 (AddDebugDomain domain ttl s) w2 in
  match Redis opt with
  | Some cli =>
      final a = s ∧ loggers (final a) = ∅ ∧
      head (trace a) = Some (add_message domain ttl)
  | None =>
      result a = None ∧
      loggers (final a) !! domain
        = Some {| log := logrus.next (heap s);
                  expiredAt := Some (time.Add (reading h2 w2 s) ttl) |} ∧
      ∃ l, logrus.objs (heap (final a)) !! logrus.next (heap s) = Some l ∧
           logrus.Logger_Level l = logrus.DebugLevel ∧
           logrus.Logger_Out l =
             if Syslog opt
             then match (h2 syslogHook w2).1 with
                  | inl _ => logrus.Discard
                  | inr _ => logrus.Stderr
                  end
             else logrus.Stderr
  end.
Proof.
  intros Hempty r Hret s a. subst r.
  destruct (Init_installs h w ParseLevel IsDevRelease opt p Hret) as [Hopts Hreg].
  fold s in Hopts, Hreg. rewrite Hempty in Hreg.
  destruct (Redis opt) as [cli|] eqn:Hcli.
  - subst a. rewrite (exec_AddDebugDomain_redis h2 w2 s cli) by (by rewrite Hopts).
    destruct (h2 (add_message domain ttl) w2) as [[e|] w3]; simpl; [done|].
    by destruct (h2 (cli_Set (debug_key domain) 0 ttl) w3).
  - assert (Redis (opts s) = None) as Hlocal by (by rewrite Hopts).
    assert (loggers s !! domain = None) as Habsent by (by rewrite Hreg).
    subst a. rewrite exec_AddDebugDomain_local, exec_addDebugDomain_absent by done.
    unfold reading. rewrite Hopts.
    destruct (Syslog opt).
    + destruct (h2 syslogHook w2) as [hr w3]. simpl.
      destruct (h2 time_Now w3) as [now w4]. simpl.
      split; [done|]. split; [by rewrite lookup_insert_eq|].
      exists (debug_logger (logrus.next (heap s)) (hook_of hr)).
      split; [by rewrite lookup_insert_eq|]. split; [done|]. by destruct hr.
    + destruct (h2 time_Now w2) as [now w3]. simpl.
      split; [done|]. split; [by rewrite lookup_insert_eq|].
      exists (debug_logger (logrus.next (heap s)) None).
      split; [by rewrite lookup_insert_eq|]. done.
Qed.

Lemma Init_then_AddDebugDomain_witness :
  let opt := {| Syslog := true; Level := ""; Redis := None |} in
  let r := exec scripted (Init ParseLevel_names false opt fresh_process) (with_syslog 0) in
  let a := exec scripted (AddDebugDomain alice (5 * time.Minute) (vars (process r)))
                (with_syslog 1000) in
  loggers (final a) !! alice
    = Some {| log := 3%nat; expiredAt := Some (1000 + 5 * time.Minute) |} ∧
  logrus.Logger_Out <$> logrus.objs (heap (final a)) !! 3%nat = Some logrus.Discard.
Proof.
  destruct (Init_then_AddDebugDomain scripted (with_syslog 0) ParseLevel_names false
              {| Syslog := true; Level := ""; Redis := None |} fresh_process
              scripted (with_syslog 1000) alice (5 * time.Minute) eq_refl eq_refl)
    as (_ & Hentry & l & Hl & _ & Hout).
  split; [exact Hentry|].
  change (logrus.next _) with 3%nat in Hl. rewrite Hl. simpl. by rewrite Hout.
Defined.

(** ** [Clone] *)

(** X4. [Clone] of a pointer that holds no logger panics.  Of a logger,
    it makes a new logger with the same output, the same formatter (by
    reference) and the same level, so a clone is at debug level exactly
    when the original is, and with the same hooks per level, held in a hook
    map of its own.  The loggers that were there, the original among
    them, are left as they were. *)
Theorem Clone_copies (h : logrus.Heap) (in_ : loc) :
  heap_ok h →
  match logrus.objs h !! in_ with
  | None => Clone in_ h = None
  | Some l =>
      ∃ out h' l',
        Clone in_ h = Some (out, h') ∧
        logrus.objs h !! out = None ∧
        logrus.objs h' !! out = Some l' ∧
        logrus.Logger_Out l' = logrus.Logger_Out l ∧
        logrus.Logger_Formatter l' = logrus.Logger_Formatter l ∧
        logrus.Logger_Level l' = logrus.Logger_Level l ∧
        (∀ data data',
           IsDebug {| logrus.Entry_Logger := out; logrus.Entry_Data := data |} h'
           = IsDebug {| logrus.Entry_Logger := in_; logrus.Entry_Data := data' |} h) ∧
        logrus.Logger_Hooks l' ≠ logrus.Logger_Hooks l ∧
        logrus.hookmaps h !! logrus.Logger_Hooks l' = None ∧
        logrus.hooks_of out h' = logrus.hooks_of in_ h ∧
        (∀ old x, logrus.objs h !! old = Some x →
           logrus.objs h' !! old = Some x ∧
           logrus.hooks_of old h' = logrus.hooks_of old h) ∧
        heap_ok h'
  end.
Proof.
  intros [Hobjs Hmaps]. destruct (logrus.objs h !! in_) as [l|] eqn:Hl.
  2:{ unfold Clone. by rewrite Hl. }
  destruct (Clone_spec h in_ l Hl) as (out & h' & l' & Hc & Hout & Ho & Hf & Hlv & Hh & Hhk).
  assert (out = logrus.next h ∧
          logrus.objs h' = <[logrus.next h := l']> (logrus.objs h) ∧
          ∃ m, logrus.hookmaps h' = <[S (logrus.next h) := m]> (logrus.hookmaps h) ∧
               logrus.next h' = S (S (logrus.next h))) as (-> & Hobjs' & m & Hmaps' & Hnext).
  { unfold Clone in Hc. rewrite Hl in Hc. injection Hc as <- <-. simpl.
    simpl in Hout. rewrite lookup_insert_eq in Hout. injection Hout as <-.
    split; [done|]. split; [done|]. by eexists. }
  assert (∀ i, (i < logrus.next h)%nat → logrus.hookmaps h' !! i = logrus.hookmaps h !! i)
    as Hsame.
  { intros i Hi. rewrite Hmaps', lookup_insert_ne by lia. done. }
  assert (logrus.objs h !! logrus.next h = None) as Hnew.
  { destruct (logrus.objs h !! logrus.next h) as [x|] eqn:Hx; [|done].
    apply Hobjs in Hx. lia. }
  pose proof (Hobjs in_ l Hl) as (Hin & Hlh & _). simpl in Hin, Hlh.
  exists (logrus.next h), h', l'.
  split; [done|]. split; [done|]. split; [done|]. split; [done|]. split; [done|].
  split; [done|]. split.
  { intros data data'. unfold IsDebug. simpl. by rewrite Hout, Hl, Hlv. }
  split; [rewrite Hh; lia|]. split.
  { rewrite Hh. destruct (logrus.hookmaps h !! S (logrus.next h)) as [x|] eqn:Hx; [|done].
    apply Hmaps in Hx. lia. }
  split.
  { rewrite Hhk. unfold logrus.hooks_of. by rewrite Hl. }
  split.
  - intros old x Hold. pose proof (Hobjs old x Hold) as (Hlt & Hhlt & _).
    simpl in Hlt, Hhlt.
    assert (logrus.objs h' !! old = Some x) as Hold'.
    { rewrite Hobjs', lookup_insert_ne by lia. done. }
    split; [done|]. unfold logrus.hooks_of. rewrite Hold', Hold. by rewrite Hsame.
  - split.
    + rewrite Hobjs', Hnext. apply map_Forall_insert_2.
      * rewrite Hh, Hf. pose proof (Hobjs in_ l Hl) as (_ & _ & Hfl). simpl in *. lia.
      * eapply map_Forall_impl; [exact Hobjs|]. simpl. intros ? ? ?. lia.
    + rewrite Hmaps', Hnext. apply map_Forall_insert_2; [lia|].
      eapply map_Forall_impl; [exact Hmaps|]. simpl. intros ? ? ?. lia.
Qed.

Lemma Clone_copies_witness :
  ∃ h' l',
    Clone logrus.std configured = Some (3%nat, h') ∧
    logrus.objs h' !! 3%nat = Some l' ∧
    logrus.Logger_Out l' = logrus.Sink 7 ∧
    logrus.hooks_of 3%nat h' = logrus.hooks_of logrus.std configured.
Proof.
  pose proof (Clone_copies configured logrus.std configured_heap_ok) as H.
  change (logrus.objs configured !! logrus.std)
    with (Some {| logrus.Logger_Out := logrus.Sink 7; logrus.Logger_Hooks := 1%nat;
                  logrus.Logger_Formatter := 2%nat;
                  logrus.Logger_Level := logrus.InfoLevel |}) in H.
  destruct H as (out & h' & l' & Hc & _ & Hl' & Hout & _ & _ & _ & _ & _ & Hhooks & _).
  assert (out = 3%nat) as ->.
  { unfold Clone in Hc. simpl in Hc. by injection Hc as <- _. }
  exists h', l'. auto.
Defined.

(** ** The life of an activation *)

(** X5. Without Redis, after [AddDebugDomain] of a domain that had no
    entry, [WithDomain] returns the domain's logger, at debug level,
    as long as the clock has not passed the expiry (the clock reading of
    the activation plus the duration), the expiry itself included; at the
    first call after that it returns the standard logger and removes the
    entry, and [DebugExpiration] then returns nil. *)
Theorem debug_until_expiry {W W'} (h : handler W) (w : W) (s : State)
    (domain : string) (ttl : time.Duration) (h' : handler W') (w' : W') :
  inv s → Redis (opts s) = None → loggers s !! domain = None →
  let s1 := final (exec h (AddDebugDomain domain ttl s) w) in
  let expiry := time.Add (reading h w s) ttl in
  let now := (h' time_Now w').1 in
  let r := exec h' (WithDomain domain s1) w' in
  result (exec h' (DebugExpiration domain s1) w') = Some expiry ∧
  (now ≤ expiry →
     final r = s1 ∧
     logrus.Entry_Logger (result r) = logrus.next (heap s) ∧
     IsDebug (result r) (heap s1) = Some true) ∧
  (expiry < now →
     result r = logrus.WithField "domain" domain ∧
     loggers (final r) !! domain = None ∧
     result (exec h' (DebugExpiration domain (final r)) (world r)) = None).
Proof.
  intros Hinv Hlocal Habsent s1 expiry now r.
  destruct (AddDebugDomain_local_absent h w s domain ttl Hlocal Habsent) as (_ & Hl & _).
  fold s1 in Hl. fold expiry in Hl.
  assert (loggers s1 !! domain
          = Some {| log := logrus.next (heap s); expiredAt := Some expiry |}) as Hentry.
  { by rewrite Hl, lookup_insert_eq. }
  assert (inv s1) as Hinv1.
  { apply (hoare_exec h w inv (AddDebugDomain domain ttl) (λ _, inv));
      [apply AddDebugDomain_inv|done]. }
  split.
  { rewrite exec_DebugExpiration. simpl. by rewrite Hentry. }
  assert (r = let '(t, w1) := h' time_Now w' in
              if time.Before expiry t
              then (logrus.WithField "domain" domain, set_loggers (delete domain) s1,
                    w1, [ev time_Now t])
              else (logrus.Logger_WithField (logrus.next (heap s)) "domain" domain, s1,
                    w1, [ev time_Now t])) as Hr.
  { subst r. unfold WithDomain, bind, get. simpl. rewrite Hentry. simpl.
    destruct (h' time_Now w') as [t w1]. simpl.
    by destruct (time.Before expiry t). }
  subst now. destruct (h' time_Now w') as [t w1]. simpl. unfold time.Before in Hr.
  split.
  - intros Hle. destruct (Z.ltb_spec expiry t) as [?|_]; [lia|]. rewrite Hr. simpl.
    split; [done|]. split; [done|].
    destruct Hinv1 as (_ & Hdbg & _). specialize (Hdbg domain _ Hentry). simpl in Hdbg.
    unfold IsDebug. simpl.
    destruct (logrus.objs (heap s1) !! logrus.next (heap s)) as [l|]; [|done].
    simpl in Hdbg. injection Hdbg as ->. by rewrite bool_decide_eq_true_2.
  - intros Hlt. destruct (Z.ltb_spec expiry t) as [_|?]; [|lia]. rewrite Hr. simpl.
    split; [done|]. split; [apply lookup_delete_eq|].
    rewrite exec_DebugExpiration. simpl. by rewrite lookup_delete_eq.
Qed.

Lemma debug_until_expiry_witness :
  let s := init local_opts logrus.loaded in
  let s1 := final (exec scripted (AddDebugDomain alice (5 * time.Minute) s) (quiet 1000)) in
  IsDebug (result (exec scripted (WithDomain alice s1) (quiet (1000 + 5 * time.Minute))))
          (heap s1) = Some true ∧
  result (exec scripted (WithDomain alice s1) (quiet (1001 + 5 * time.Minute)))
    = logrus.WithField "domain" alice.
Proof.
  pose proof (debug_until_expiry scripted (quiet 1000) (init local_opts logrus.loaded)
                alice (5 * time.Minute) scripted (quiet (1000 + 5 * time.Minute))
                (init_inv local_opts logrus.loaded loaded_heap_ok) eq_refl eq_refl)
    as (_ & Hbefore & _).
  pose proof (debug_until_expiry scripted (quiet 1000) (init local_opts logrus.loaded)
                alice (5 * time.Minute) scripted (quiet (1001 + 5 * time.Minute))
                (init_inv local_opts logrus.loaded loaded_heap_ok) eq_refl eq_refl)
    as (_ & _ & Hafter).
  split.
  - refine (proj2 (proj2 (Hbefore _))). by vm_compute.
  - refine (proj1 (Hafter _)). by vm_compute.
Defined.

(** ** One domain at a time *)

(** X6. What is done for one domain leaves the entries of the others
    alone: after [AddDebugDomain], [RemoveDebugDomain], [WithDomain] or
    [DebugExpiration] on a domain, or a message about a domain, with or
    without Redis and whatever the environment answers, every other domain
    has the entry it had, or none as before. *)
Theorem other_domains_untouched {W} (h : handler W) (w : W) (s : State)
    (ParseDuration : string → time.Duration * option error) (o : op)
    (domain other : string) :
  op_domain o = Some domain → domain ≠ other →
  loggers (final (exec h (run_op ParseDuration o s) w)) !! other = loggers s !! other.
Proof.
  intros Hdom Hne.
  assert (always (run_op ParseDuration o s)
                 (λ r, loggers r.2 !! other = loggers s !! other)) as Halways.
  2:{ exact (always_exec h _ _ w Halways). }
  assert (∀ ttl, always (addDebugDomain domain ttl s)
                        (λ r, loggers r.2 !! other = loggers s !! other)) as Hadd.
  { intros ttl.
    apply (always_addDebugDomain s domain ttl
             (λ s', loggers s' !! other = loggers s !! other)); [done|].
    intros _ syslog now. simpl. by rewrite lookup_insert_ne. }
  assert (loggers (set_loggers (delete domain) s) !! other = loggers s !! other) as Hdel.
  { simpl. by rewrite lookup_delete_ne. }
  destruct o as [d ttl|d|d|d|msg|cli]; simpl in Hdom; try injection Hdom as ->;
    unfold run_op.
  - apply (always_then_ret _ _ _ (λ s', loggers s' !! other = loggers s !! other)).
    unfold AddDebugDomain. unfold bind at 1. unfold get. simpl.
    destruct (Redis (opts s)) as [c|].
    + by apply (always_publishDebug _ _ _ _ _
                  (λ s', loggers s' !! other = loggers s !! other)).
    + by apply (always_then_ret _ _ _ (λ s', loggers s' !! other = loggers s !! other)).
  - apply (always_then_ret _ _ _ (λ s', loggers s' !! other = loggers s !! other)).
    unfold RemoveDebugDomain. unfold bind at 1. unfold get. simpl.
    destruct (Redis (opts s)) as [c|].
    + by apply (always_publishDebug _ _ _ _ _
                  (λ s', loggers s' !! other = loggers s !! other)).
    + exact Hdel.
  - apply (always_then_ret _ _ _ (λ s', loggers s' !! other = loggers s !! other)).
    unfold WithDomain, bind, get. simpl.
    destruct (loggers s !! domain) as [e|]; simpl; [|done].
    unfold lift, Expired. destruct (expiredAt e) as [t|]; simpl; [|done].
    intros now. destruct (time.Before t now); simpl; [exact Hdel|done].
  - apply (always_then_ret _ _ _ (λ s', loggers s' !! other = loggers s !! other)).
    unfold DebugExpiration, bind, get. simpl.
    by destruct (loggers s !! domain).
  - apply (always_then_ret _ _ _ (λ s', loggers s' !! other = loggers s !! other)).
    unfold message_domain in Hdom. unfold receive. rewrite Hdom.
    destruct (String.eqb (Channel msg) debugRedisAddChannel).
    + match goal with |- context [match ?t with Some _ => _ | None => _ end] =>
        destruct t as [ttl|] end; [|done].
      by apply (always_then_ret _ _ _ (λ s', loggers s' !! other = loggers s !! other)).
    + destruct (String.eqb (Channel msg) debugRedisRmvChannel); simpl; [exact Hdel|done].
  - done.
Qed.

Lemma other_domains_untouched_witness :
  loggers (final (exec scripted
                    (run_op ParseDuration_whole (DoRemove "bob.example") alice_active)
                    (quiet 2000))) !! alice
  = loggers alice_active !! alice.
Proof.
  apply (other_domains_untouched scripted (quiet 2000) alice_active ParseDuration_whole
           (DoRemove "bob.example") "bob.example" alice eq_refl).
  by vm_compute.
Defined.

(** X7. Without Redis, [RemoveDebugDomain] of a domain that has no entry
    returns nil, makes no call and changes nothing; so removing a domain a
    second time changes nothing either. *)
Theorem RemoveDebugDomain_absent {W} (h : handler W) (w : W) (s : State)
    (domain : string) :
  Redis (opts s) = None →
  (loggers s !! domain = None →
   exec h (RemoveDebugDomain domain s) w = (None, s, w, [])) ∧
  let r1 := exec h (RemoveDebugDomain domain s) w in
  exec h (RemoveDebugDomain domain (final r1)) (world r1) = (None, final r1, world r1, []).
Proof.
  intros Hlocal.
  assert (∀ s0 (w0 : W), Redis (opts s0) = None → loggers s0 !! domain = None →
            exec h (RemoveDebugDomain domain s0) w0 = (None, s0, w0, [])) as Hnoop.
  { intros s0 w0 Hl Ha. rewrite exec_RemoveDebugDomain_local by done.
    f_equal. f_equal. f_equal. apply state_eq; simpl; [done| |done].
    by apply delete_id. }
  split; [by apply Hnoop|].
  rewrite exec_RemoveDebugDomain_local by done. simpl.
  apply Hnoop; simpl; [done|apply lookup_delete_eq].
Qed.

Lemma RemoveDebugDomain_absent_witness :
  exec scripted (RemoveDebugDomain "bob.example" alice_active) (quiet 2000)
  = (None, alice_active, quiet 2000, []).
Proof.
  exact (proj1 (RemoveDebugDomain_absent scripted (quiet 2000) alice_active
                  "bob.example" eq_refl) eq_refl).
Defined.

(** ** The loggers that exist are left alone *)




(** ** What is published is what is read *)

Lemma digit_no_slash (v : Z) : 0 ≤ v < 10 → Ascii.eqb (time.digit v) "/" = false.
Proof.
  intros Hv. unfold time.digit.
  assert (Z.to_nat v < 10)%nat as Hn by lia.
  revert Hn. generalize (Z.to_nat v). intros n Hn.
  do 10 (destruct n as [|n]; [reflexivity|]). lia.
Qed.

Lemma fmtInt_loop_no_slash (fuel : nat) (buf : string) (v : Z) :
  no_slash buf = true → no_slash (time.fmtInt_loop fuel buf v) = true.
Proof.
  revert buf v. induction fuel as [|fuel IH]; intros buf v Hbuf;
    cbn [time.fmtInt_loop]; [done|].
  destruct (0 <? v); [|done]. apply IH. cbn [no_slash].
  rewrite digit_no_slash; [done|]. apply Z.mod_pos_bound. lia.
Qed.

Lemma fmtInt_no_slash (buf : string) (v : Z) :
  no_slash buf = true → no_slash (time.fmtInt buf v) = true.
Proof.
  intros Hbuf. unfold time.fmtInt. destruct (v =? 0); [done|].
  by apply fmtInt_loop_no_slash.
Qed.

Lemma fmtFrac_loop_no_slash (prec : nat) (buf : string) (v : Z) (print : bool) :
  no_slash buf = true → no_slash (time.fmtFrac_loop prec buf v print).1.1 = true.
Proof.
  revert buf v print. induction prec as [|prec IH]; intros buf v print Hbuf;
    cbn [time.fmtFrac_loop]; [done|].
  apply IH. destruct (print || negb (v mod 10 =? 0)); [|done]. cbn [no_slash].
  rewrite digit_no_slash; [done|]. apply Z.mod_pos_bound. lia.
Qed.

Lemma fmtFrac_no_slash (buf : string) (v : Z) (prec : nat) :
  no_slash buf = true → no_slash (time.fmtFrac buf v prec).1 = true.
Proof.
  intros Hbuf. unfold time.fmtFrac.
  pose proof (fmtFrac_loop_no_slash prec buf v false Hbuf) as H.
  destruct (time.fmtFrac_loop prec buf v false) as [[b u] print].
  cbn [fst snd] in *. by destruct print.
Qed.

Lemma Duration_String_no_slash (d : Z) : no_slash (time.Duration_String d) = true.
Proof.
  unfold time.Duration_String.
  set (u := if d <? 0 then (- (d mod 2 ^ 64)) mod 2 ^ 64 else d mod 2 ^ 64).
  assert (∀ s : string, no_slash s = true →
            no_slash (if d <? 0 then String "-" s else s) = true) as Hneg.
  { intros s Hs. by destruct (d <? 0). }
  destruct (u <? time.Second).
  - destruct (u =? 0); [done|].
    assert (∀ (prec : nat) (unit : string), no_slash unit = true →
              no_slash (let '(buf, u0) := time.fmtFrac unit u prec in
                        if d <? 0 then String "-" (time.fmtInt buf u0)
                        else time.fmtInt buf u0) = true) as Hunit.
    { intros prec unit Hunit. pose proof (fmtFrac_no_slash unit u prec Hunit) as H.
      destruct (time.fmtFrac unit u prec) as [b u0]. cbn [fst] in H.
      by apply Hneg, fmtInt_no_slash. }
    destruct (u <? time.Microsecond); [by apply Hunit|].
    destruct (u <? time.Millisecond); by apply Hunit.
  - pose proof (fmtFrac_no_slash "s" u 9 eq_refl) as H.
    destruct (time.fmtFrac "s" u 9) as [b u0]. cbn [fst] in H.
    apply Hneg. destruct (0 <? u0 / 60).
    + destruct (0 <? u0 / 60 / 60).
      * apply fmtInt_no_slash. cbn [no_slash]. apply fmtInt_no_slash.
        cbn [no_slash]. by apply fmtInt_no_slash.
      * apply fmtInt_no_slash. cbn [no_slash]. by apply fmtInt_no_slash.
    + by apply fmtInt_no_slash.
Qed.

Lemma Split_no_slash (s : string) : no_slash s = true → gostrings.Split s "/" = [s].
Proof.
  induction s as [|c s IH]; simpl; [done|].
  intros [Hc Hs]%andb_prop. apply negb_true_iff in Hc. rewrite Hc, (IH Hs). done.
Qed.

Lemma Split_domain (domain rest : string) :
  no_slash domain = true →
  gostrings.Split (domain +:+ "/" +:+ rest) "/" = domain :: gostrings.Split rest "/".
Proof.
  induction domain as [|c s IH]; simpl; [done|].
  intros [Hc Hs]%andb_prop. apply negb_true_iff in Hc. rewrite Hc.
  simpl in IH. rewrite (IH Hs). done.
Qed.

(** X9. A domain that holds no slash comes back from its messages: the
    receiver reads, in the message that [AddDebugDomain] publishes, the
    domain and the duration as [Duration.String] wrote it (which holds no
    slash either), and in the message of [RemoveDebugDomain] the domain.
    So with a parser that reads that string back as the duration, a
    process that receives the activation does what [addDebugDomain] does
    for the domain and the duration, and one that receives the
    deactivation removes the entry.  From a payload that goes on after a
    second slash the receiver takes what stands before the first slash as
    the domain. *)
Theorem published_is_received {W} (h : handler W) (w : W) (s : State)
    (ParseDuration : string → time.Duration * option error)
    (domain : string) (ttl : time.Duration) :
  no_slash domain = true →
  ∃ add rmv,
    delivered (add_message domain ttl) = Some add ∧
    delivered (rmv_message domain) = Some rmv ∧
    message_domain add = Some domain ∧
    gostrings.Split (Payload add) "/" !! 1%nat = Some (time.Duration_String ttl) ∧
    message_domain rmv = Some domain ∧
    ((ParseDuration (time.Duration_String ttl)).1 = ttl →
       final (exec h (receive ParseDuration add s) w)
         = final (exec h (addDebugDomain domain ttl s) w)) ∧
    final (exec h (receive ParseDuration rmv s) w) = set_loggers (delete domain) s ∧
    ∀ rest channel,
      message_domain {| Channel := channel; Payload := domain +:+ "/" +:+ rest |}
        = Some domain.
Proof.
  intros Hdomain. eexists _, _. split; [reflexivity|]. split; [reflexivity|].
  assert (∀ rest channel,
            message_domain {| Channel := channel; Payload := domain +:+ "/" +:+ rest |}
            = Some domain) as Hfirst.
  { intros rest channel. unfold message_domain. simpl.
    by rewrite (Split_domain domain rest Hdomain). }
  assert (gostrings.Split (domain +:+ "/" +:+ time.Duration_String ttl) "/" !! 1%nat
          = Some (time.Duration_String ttl)) as Hsecond.
  { rewrite (Split_domain domain _ Hdomain).
    by rewrite (Split_no_slash _ (Duration_String_no_slash ttl)). }
  split; [apply Hfirst|]. split; [exact Hsecond|]. split; [apply Hfirst|].
  split; [|split; [|exact Hfirst]].
  - intros Hparse.
    destruct (exec_receive ParseDuration h w s
                {| Channel := debugRedisAddChannel;
                   Payload := domain +:+ "/" +:+ time.Duration_String ttl |})
      as (d & Hd & ->).
    rewrite Hfirst in Hd. injection Hd as <-.
    unfold message_ttl. cbn [Payload Channel]. rewrite Hsecond, Hparse.
    change (String.eqb debugRedisAddChannel debugRedisAddChannel) with true.
    cbv iota.
    by destruct (exec h (addDebugDomain domain ttl s) w) as [[[[] ?] ?] ?].
  - destruct (exec_receive ParseDuration h w s
                {| Channel := debugRedisRmvChannel;
                   Payload := domain +:+ "/" +:+ time.Duration_String 0 |})
      as (d & Hd & ->).
    rewrite Hfirst in Hd. by injection Hd as <-.
Qed.

Lemma published_is_received_witness :
  let s := init redis_opts logrus.loaded in
  let add := {| Channel := "add:log-debug"; Payload := "alice.example/5m0s" |} in
  final (exec scripted (receive ParseDuration_whole add s) (quiet 1000))
    = final (exec scripted (addDebugDomain alice (5 * time.Minute) s) (quiet 1000)).
Proof.
  destruct (published_is_received scripted (quiet 1000) (init redis_opts logrus.loaded)
              ParseDuration_whole alice (5 * time.Minute) eq_refl)
    as (add & rmv & Hadd & _ & _ & _ & _ & Hreceive & _).
  injection Hadd as <-. exact (Hreceive eq_refl).
Defined.

(** ** The key of a domain *)

Lemma TrimPrefix_debug_key (domain : string) :
  gostrings.TrimPrefix (debug_key domain) debugRedisPrefix = domain.
Proof. by destruct domain. Qed.

(** X10. The key that an activation writes gives the domain back at the
    next start: when Redis lists the key ["debug:" + domain] and tells the
    time left for it, [loadDebug] registers that domain, absent before,
    until the clock reading plus the time left, and returns.  This for any
    domain, a slash in it or not, and any time left, negative included. *)
Theorem loadDebug_restores {W} (h : handler W) (w w1 w2 : W) (s : State)
    (cli : UniversalClient) (domain : string) (ttl left : time.Duration) :
  h (cli_Keys "debug:*") w = (inl [debugRedisPrefix +:+ domain], w1) →
  h (cli_TTL (debugRedisPrefix +:+ domain)) w1 = (inl left, w2) →
  loggers s !! domain = None →
  let written := exec h (publishDebug cli debugRedisAddChannel domain ttl s) w in
  let r := exec h (loadDebug cli s) w in
  (result written = None →
     last (trace written) = Some (cli_Set (debugRedisPrefix +:+ domain) 0 ttl)) ∧
  loggers (final r)
    = <[domain := {| log := logrus.next (heap s);
                     expiredAt := Some (time.Add (reading h w2 s) left) |}]> (loggers s) ∧
  trace r = cli_Keys "debug:*" :: cli_TTL (debugRedisPrefix +:+ domain)
            :: (if Syslog (opts s) then [syslogHook; time_Now] else [time_Now]).
Proof.
  intros Hkeys Httl Habsent written r. split.
  - subst written. unfold publishDebug, bind, ask. simpl.
    destruct (h (cli_Publish _ _) w) as [[e|] w3]; simpl; [done|].
    by destruct (h (cli_Set _ 0 ttl) w3).
  - subst r. unfold loadDebug. rewrite exec_ask_bind.
    change (debugRedisPrefix +:+ "*") with "debug:*". rewrite Hkeys.
    rewrite loadDebug_keys_cons, exec_ask_bind, Httl, exec_bind.
    fold (debug_key domain). rewrite TrimPrefix_debug_key.
    rewrite exec_addDebugDomain_absent by done.
    unfold reading. destruct (Syslog (opts s)).
    + destruct (h syslogHook w2) as [hr w3]. simpl.
      by destruct (h time_Now w3) as [now w4].
    + by destruct (h time_Now w2) as [now w3].
Qed.

(** Redis holds the key of alice.example, with thirty seconds left. *)
Lemma loadDebug_restores_witness :
  let h : handler Script :=
    λ c, match c return Script → resp c * Script with
         | cli_Keys _ => λ w, (inl ["debug:alice.example"], w)
         | cli_TTL _ => λ w, (inl (30 * time.Second), w)
         | c => scripted c
         end in
  loggers (final (exec h (loadDebug (Client 1) (init redis_opts logrus.loaded))
                    (quiet 1000))) !! alice
  = Some {| log := 3%nat; expiredAt := Some (1000 + 30 * time.Second) |}.
Proof.
  intros h.
  destruct (loadDebug_restores h (quiet 1000) (quiet 1000) (quiet 1000)
              (init redis_opts logrus.loaded) (Client 1) alice 0 (30 * time.Second)
              eq_refl eq_refl eq_refl) as (_ & Hl & _).
  rewrite Hl. apply lookup_insert_eq.
Defined.

(* ===================================================================== *)
(** * swift.go *)
(* ===================================================================== *)

(** ** The batches of [deleteContainerFiles] *)

Lemma objectToDelete_take (l : list string) (i : Z) :
  0 ≤ i → i * 8000 ≤ Z.of_nat (length l) →
  vfsswift.objectToDelete l i = Some (take (Z.to_nat 8000) (drop (Z.to_nat (i * 8000)) l)).
Proof.
  intros Hi Hle. unfold vfsswift.objectToDelete, vfsswift.slice,
    vfsswift.maxNbFilesToDelete.
  destruct (Z.ltb_spec (Z.of_nat (length l)) ((i + 1) * 8000)) as [Hlt|Hge].
  - replace ((0 <=? i * 8000) && (i * 8000 <=? Z.of_nat (length l))
             && (Z.of_nat (length l) <=? Z.of_nat (length l))) with true
      by (symmetry; rewrite !andb_true_iff, !Z.leb_le; lia).
    f_equal.
    rewrite !take_ge; [done| |]; rewrite length_drop; lia.
  - replace ((0 <=? i * 8000) && (i * 8000 <=? (i + 1) * 8000)
             && ((i + 1) * 8000 <=? Z.of_nat (length l))) with true
      by (symmetry; rewrite !andb_true_iff, !Z.leb_le; lia).
    f_equal. f_equal. lia.
Qed.

Lemma batches_from_spec (l : list string) (turns : nat) (i : Z) :
  0 ≤ i →
  turns = 0%nat ∨ (i + Z.of_nat turns - 1) * 8000 ≤ Z.of_nat (length l) →
  ∃ bs,
    vfsswift.batches_from turns l i = Some bs ∧
    length bs = turns ∧
    concat bs = take (Z.to_nat (Z.of_nat turns * 8000)) (drop (Z.to_nat (i * 8000)) l) ∧
    Forall (λ b, Z.of_nat (length b) ≤ 8000) bs ∧
    ((i + Z.of_nat turns - 1) * 8000 < Z.of_nat (length l) → Forall (λ b, b ≠ []) bs).
Proof.
  revert i. induction turns as [|turns IH]; intros i Hi Hlast.
  { exists []. simpl. repeat split; constructor. }
  destruct Hlast as [?|Hlast]; [done|].
  destruct (IH (i + 1)) as (bs & Hbs & Hlen & Hconcat & Hsize & Hfull);
    [lia|right; lia|].
  exists (take (Z.to_nat 8000) (drop (Z.to_nat (i * 8000)) l) :: bs).
  split; [|split; [|split; [|split]]].
  - cbn [vfsswift.batches_from]. rewrite objectToDelete_take by lia.
    simpl. rewrite Hbs. done.
  - simpl. by rewrite Hlen.
  - simpl. rewrite Hconcat.
    replace (Z.to_nat ((i + 1) * 8000))
      with (Z.to_nat (i * 8000) + Z.to_nat 8000)%nat by lia.
    rewrite <- drop_drop. rewrite take_take_drop. f_equal. lia.
  - constructor; [|done]. rewrite length_take. lia.
  - intros Hlt. constructor; [|apply Hfull; lia].
    intros Hnil. apply take_nil_inv in Hnil as [?|Hnil]; [done|].
    apply drop_nil_inv in Hnil. lia.
Qed.

(** X11. The first loop of [deleteContainerFiles] never slices out of
    range, and the slices it hands to the goroutines are the object names
    cut in order into pieces of at most 8000: put end to end they are the
    list, there are [nb] of them, and for a list that is not empty none is
    empty and [nb] is the least number of batches of 8000 that hold it.
    For an empty list there is one batch, which is empty (Go's division
    gives [nb] = 1), so [deleteContainerFiles] would ask for a bulk delete
    of nothing; [DeleteContainer] does not call it then. *)
Theorem batches_partition (objectNames : list string) :
  ∃ bs,
    vfsswift.batches objectNames = Some bs ∧
    concat bs = objectNames ∧
    Z.of_nat (length bs) = vfsswift.nb objectNames ∧
    Forall (λ b, Z.of_nat (length b) ≤ vfsswift.maxNbFilesToDelete) bs ∧
    match objectNames with
    | [] => bs = [[]]
    | _ :: _ =>
        Forall (λ b, b ≠ []) bs ∧
        (vfsswift.nb objectNames - 1) * vfsswift.maxNbFilesToDelete
          < Z.of_nat (length objectNames)
          ≤ vfsswift.nb objectNames * vfsswift.maxNbFilesToDelete
    end.
Proof.
  unfold vfsswift.batches, vfsswift.maxNbFilesToDelete.
  set (n := Z.of_nat (length objectNames)).
  assert (vfsswift.nb objectNames = 1 + (if n =? 0 then 0 else (n - 1) / 8000)) as Hnb.
  { unfold vfsswift.nb, vfsswift.maxNbFilesToDelete. fold n.
    destruct (Z.eqb_spec n 0) as [->|Hn]; [done|].
    rewrite Z.quot_div_nonneg by lia. done. }
  assert (0 ≤ n) as Hn0 by lia.
  assert (n ≠ 0 → 8000 * ((n - 1) / 8000) ≤ n - 1 < 8000 * ((n - 1) / 8000 + 1)) as Hdiv.
  { intros Hn. split.
    - apply Z.mul_div_le. lia.
    - replace ((n - 1) / 8000 + 1) with (Z.succ ((n - 1) / 8000)) by lia.
      apply Z.mul_succ_div_gt. lia. }
  assert (0 ≤ (n - 1) / 8000 ∨ n = 0) as Hq.
  { destruct (Z.eqb_spec n 0); [by right|left]. apply Z.div_pos; lia. }
  destruct (batches_from_spec objectNames (Z.to_nat (vfsswift.nb objectNames)) 0)
    as (bs & Hbs & Hlen & Hconcat & Hsize & Hfull); [done| |].
  { right. rewrite Hnb. fold n. destruct (Z.eqb_spec n 0); lia. }
  exists bs. split; [done|]. split; [|split; [|split]].
  - rewrite Hconcat. simpl. rewrite drop_0. apply take_ge.
    rewrite Hnb. destruct (Z.eqb_spec n 0); lia.
  - rewrite Hlen, Hnb. destruct (Z.eqb_spec n 0); lia.
  - exact Hsize.
  - destruct objectNames as [|o objectNames].
    + change (Z.to_nat (vfsswift.nb [])) with 1%nat in Hbs. simpl in Hbs.
      by injection Hbs as <-.
    + assert (n ≠ 0) as Hn by (subst n; simpl; lia).
      rewrite Hnb in *. fold n in Hfull.
      destruct (Z.eqb_spec n 0) as [?|_]; [done|]. specialize (Hdiv Hn).
      split; [apply Hfull; lia|]. fold n. lia.
Qed.

Example batches_16001 :
  (map length <$> vfsswift.batches (replicate (Z.to_nat 16001) "o"))
  = Some [Z.to_nat 8000; Z.to_nat 8000; 1%nat].
Proof. by vm_compute. Qed.

(** ** Gathering the errors of the bulk deletes *)

Lemma swift_exec_pbind {A B W} (h : vfsswift.handler W) (p : vfsswift.prog A)
    (f : A → vfsswift.prog B) (w : W) :
  vfsswift.exec h (vfsswift.pbind p f) w =
    let '(a, w1, t1) := vfsswift.exec h p w in
    let '(b, w2, t2) := vfsswift.exec h (f a) w1 in
    (b, w2, (t1 ++ t2)%list).
Proof.
  revert w. induction p as [a | c k IH]; intros w; simpl.
  - by destruct (vfsswift.exec h (f a) w) as [[b w2] t2].
  - destruct (h c w) as [r w']. rewrite IH.
    destruct (vfsswift.exec h (k r) w') as [[a w1] t1].
    by destruct (vfsswift.exec h (f a) w1) as [[b w2] t2].
Qed.

(** The calls of the goroutines: one bulk delete for each scheduled
    batch, answered in that order. *)
Lemma bulk_deletes_spec {W} (h : vfsswift.handler W) (container : string)
    (bs : list (list string)) (sched : list nat) (w : W) :
  Forall (λ i, (i < length bs)%nat) sched →
  let r := vfsswift.exec h (vfsswift.bulk_deletes container bs sched) w in
  r.1.1.*1 = sched ∧
  r.2.*2 = r.1.1.*2 ∧
  Forall2 (λ i c, ∃ b, bs !! i = Some b ∧ c = vfsswift.BulkDelete container b)
          sched r.2.*1.
Proof.
  revert w. induction sched as [|i rest IH]; intros w Hlt r; subst r.
  { simpl. repeat split. constructor. }
  apply Forall_cons in Hlt as [Hi Hrest].
  destruct (lookup_lt_is_Some_2 bs i Hi) as [b Hb].
  cbn [vfsswift.bulk_deletes]. rewrite Hb. cbn [vfsswift.exec].
  destruct (h (vfsswift.BulkDelete container b) w) as [err w1].
  rewrite swift_exec_pbind. specialize (IH w1 Hrest).
  destruct (vfsswift.exec h (vfsswift.bulk_deletes container bs rest) w1)
    as [[rs w2] t]. simpl in IH. destruct IH as (IH1 & IH2 & IH3). simpl.
  rewrite app_nil_r. split; [by f_equal|]. split; [by f_equal|].
  constructor; [by exists b|done].
Qed.

Lemma gather_foldl (F : nat → option vfsswift.swift_error) (recv : list nat)
    (acc : option (list vfsswift.swift_error)) :
  acc ≠ Some [] →
  foldl (λ errm i, match F i with
                   | Some err => vfsswift.Append errm err
                   | None => errm
                   end) acc recv
  = match (default [] acc ++ omap F recv)%list with
    | [] => None
    | errs => Some errs
    end.
Proof.
  revert acc. induction recv as [|i recv IH]; intros acc Hacc; simpl.
  { rewrite app_nil_r. destruct acc as [[|e l]|]; done. }
  destruct (F i) as [err|].
  - rewrite IH.
    + destruct acc as [l|]; simpl; [|done]. by rewrite <- app_assoc.
    + by destruct acc as [[|e l]|].
  - by rewrite IH.
Qed.

Lemma omap_lookup_seq {A B} (g : option A → option B) (l : list A) :
  omap (λ i, g (l !! i)) (seq 0 (length l)) = omap (λ x, g (Some x)) l.
Proof.
  induction l as [|x l IH] using rev_ind; [done|].
  rewrite length_app. simpl. rewrite Nat.add_1_r, seq_S, !omap_app. simpl.
  rewrite lookup_app_r, Nat.sub_diag by lia. simpl. f_equal.
  rewrite <- IH. apply list_omap_ext, Forall_Forall2_diag, Forall_forall.
  intros i Hi%elem_of_seq. rewrite lookup_app_l by lia. done.
Qed.

Lemma gather_omap (rs : list (nat * option vfsswift.swift_error)) (recv : list nat) :
  vfsswift.gather rs recv =
    match omap (λ i, mjoin (rs.*2 !! i)) recv with
    | [] => None
    | errs => Some errs
    end.
Proof.
  unfold vfsswift.gather.
  change (omap (λ i, mjoin (rs.*2 !! i)) recv)
    with (default [] None ++ omap (λ i, mjoin (rs.*2 !! i)) recv)%list.
  rewrite <- (gather_foldl (λ i, mjoin (rs.*2 !! i)) recv None) by done.
  generalize (@None (list vfsswift.swift_error)).
  induction recv as [|i recv IH]; intros acc; [done|]. simpl.
  rewrite <- IH. f_equal. by destruct (rs.*2 !! i) as [[err|]|].
Qed.

Lemma gather_spec (rs : list (nat * option vfsswift.swift_error)) (recv : list nat) :
  recv ≡ₚ seq 0 (length rs) →
  ∃ errs,
    errs ≡ₚ omap id rs.*2 ∧
    vfsswift.gather rs recv = match errs with [] => None | _ => Some errs end.
Proof.
  intros Hperm. exists (omap (λ i, mjoin (rs.*2 !! i)) recv). split.
  - rewrite Hperm. replace (length rs) with (length rs.*2) by apply length_fmap.
    rewrite (omap_lookup_seq mjoin).
    assert (omap (λ x, mjoin (Some x)) rs.*2 = omap id rs.*2) as ->; [|done].
    apply list_omap_ext, Forall_Forall2_diag, Forall_forall. by intros [e|] _.
  - rewrite gather_omap. by destruct (omap _ recv).
Qed.

Lemma batches_length (objectNames : list string) :
  ∃ bs,
    vfsswift.batches objectNames = Some bs ∧
    length bs = Z.to_nat (vfsswift.nb objectNames).
Proof.
  unfold vfsswift.batches.
  set (n := Z.of_nat (length objectNames)).
  assert (vfsswift.nb objectNames = 1 + (if n =? 0 then 0 else (n - 1) / 8000)) as Hnb.
  { unfold vfsswift.nb, vfsswift.maxNbFilesToDelete. fold n.
    destruct (Z.eqb_spec n 0) as [->|Hn]; [done|].
    rewrite Z.quot_div_nonneg by lia. done. }
  assert (n ≠ 0 → 8000 * ((n - 1) / 8000) ≤ n - 1) as Hdiv.
  { intros Hn. apply Z.mul_div_le. lia. }
  assert (0 ≤ (n - 1) / 8000 ∨ n = 0) as Hq.
  { destruct (Z.eqb_spec n 0); [by right|left]. apply Z.div_pos; lia. }
  destruct (batches_from_spec objectNames (Z.to_nat (vfsswift.nb objectNames)) 0)
    as (bs & Hbs & Hlen & _); [done| |].
  { right. rewrite Hnb. fold n. destruct (Z.eqb_spec n 0); lia. }
  by exists bs.
Qed.

Lemma calls_of_schedule {A B} (f : A → B) (bs : list A) (sched : list nat) (cs : list B) :
  Forall2 (λ i c, ∃ b, bs !! i = Some b ∧ c = f b) sched cs →
  cs = omap (λ i, f <$> bs !! i) sched.
Proof.
  induction 1 as [|i c sched cs (b & Hb & ->) _ IH]; [done|].
  simpl. rewrite Hb. simpl. by f_equal.
Qed.

Lemma omap_id_nil {A} (l : list (option A)) :
  omap id l = [] ↔ Forall (λ o, o = None) l.
Proof.
  induction l as [|[a|] l IH]; simpl.
  - split; [constructor|done].
  - split; [done|]. by intros [? _]%Forall_cons.
  - rewrite IH. split; [by constructor|]. by intros [_ ?]%Forall_cons.
Qed.

Lemma exec_answers {A W} (h : vfsswift.handler W) (p : vfsswift.prog A) (w : W) :
  let r := vfsswift.exec h p w in
  r.2 = vfsswift.answers h r.2.*1 w ∧ r.1.2 = vfsswift.after h r.2.*1 w.
Proof.
  revert w. induction p as [a | c k IH]; intros w; [done|].
  cbn [vfsswift.exec]. destruct (h c w) as [a w1] eqn:Hc.
  specialize (IH a w1). destruct (vfsswift.exec h (k a) w1) as [[b w2] t].
  simpl in *. rewrite Hc. simpl. destruct IH as [IH1 IH2].
  split; [f_equal; exact IH1|exact IH2].
Qed.

Lemma deleteContainerFiles_run {W} (h : vfsswift.handler W) (w : W)
    (sched recv : list nat) (container : string) (objectNames : list string) :
  sched ≡ₚ seq 0 (Z.to_nat (vfsswift.nb objectNames)) →
  recv ≡ₚ seq 0 (Z.to_nat (vfsswift.nb objectNames)) →
  let r := vfsswift.exec h
             (vfsswift.deleteContainerFiles sched recv container objectNames) w in
  ∃ bs errs,
    vfsswift.batches objectNames = Some bs ∧
    r.2.*1 ≡ₚ vfsswift.BulkDelete container <$> bs ∧
    errs ≡ₚ omap id r.2.*2 ∧
    r.1.1 = Some (match errs with [] => None | _ => Some (vfsswift.Multi errs) end).
Proof.
  intros Hsched Hrecv r. subst r.
  unfold vfsswift.deleteContainerFiles.
  destruct (batches_length objectNames) as (bs & Hbs & Hlen).
  rewrite Hbs, swift_exec_pbind.
  assert (Forall (λ i, (i < length bs)%nat) sched) as Hlt.
  { apply Forall_forall. intros i Hi. rewrite Hsched in Hi.
    apply elem_of_seq in Hi. lia. }
  pose proof (bulk_deletes_spec h container bs sched w Hlt) as Hrun.
  destruct (vfsswift.exec h (vfsswift.bulk_deletes container bs sched) w)
    as [[rs w1] t]. simpl in Hrun. destruct Hrun as (Hrs & Ht & Hcalls).
  cbn [vfsswift.exec fst snd]. rewrite app_nil_r.
  assert (length rs = Z.to_nat (vfsswift.nb objectNames)) as Hlrs.
  { rewrite <- (length_fmap fst rs), Hrs, Hsched. apply length_seq. }
  destruct (gather_spec rs recv) as (errs & Herrs & Hgather).
  { by rewrite Hlrs. }
  exists bs, errs. rewrite Ht. split; [done|]. split; [|split; [done|]].
  - rewrite (calls_of_schedule _ _ _ _ Hcalls), Hsched, <- Hlen.
    rewrite (omap_lookup_seq (fmap (vfsswift.BulkDelete container))).
    clear. induction bs as [|b bs IH]; [done|]. simpl. by rewrite IH.
  - rewrite Hgather. by destruct errs.
Qed.

(** X12. [deleteContainerFiles], whatever the order in which the
    goroutines get to call swift and whatever the order in which their
    errors reach the channel, for any object store: it never panics; each
    batch of the first loop is bulk-deleted in the container exactly once
    and no other call is made; the error returned is nil exactly when no
    bulk delete failed, and otherwise a multierror that holds the error of
    every failed bulk delete, once each, and nothing else.  A failure does
    not stop the other bulk deletes. *)
Theorem deleteContainerFiles_all_batches {W} (h : vfsswift.handler W) (w : W)
    (sched recv : list nat) (container : string) (objectNames : list string) :
  sched ≡ₚ seq 0 (Z.to_nat (vfsswift.nb objectNames)) →
  recv ≡ₚ seq 0 (Z.to_nat (vfsswift.nb objectNames)) →
  let r := vfsswift.exec h
             (vfsswift.deleteContainerFiles sched recv container objectNames) w in
  ∃ bs errs,
    vfsswift.batches objectNames = Some bs ∧
    r.2.*1 ≡ₚ vfsswift.BulkDelete container <$> bs ∧
    errs ≡ₚ omap id r.2.*2 ∧
    r.1.1 = Some (match errs with [] => None | _ => Some (vfsswift.Multi errs) end) ∧
    (r.1.1 = Some None ↔ Forall (λ e, e.2 = None) r.2).
Proof.
  intros Hsched Hrecv r.
  destruct (deleteContainerFiles_run h w sched recv container objectNames Hsched Hrecv)
    as (bs & errs & Hbs & Hcalls & Herrs & Hres).
  fold r in Hcalls, Herrs, Hres. exists bs, errs. repeat (split; [done|]).
  rewrite Hres.
  assert (errs = [] ↔ Forall (λ e : vfsswift.call * option vfsswift.swift_error,
                                e.2 = None) r.2) as <-.
  { change (Forall (λ e : vfsswift.call * option vfsswift.swift_error, e.2 = None) r.2)
      with (Forall ((λ o : option vfsswift.swift_error, o = None) ∘ snd) r.2).
    rewrite <- Forall_fmap, <- omap_id_nil. split.
    - intros ->. by apply Permutation_nil_l in Herrs.
    - intros Hnil. rewrite Hnil in Herrs. by apply Permutation_nil_r in Herrs. }
  destruct errs; split; intros ?; simplify_eq; done.
Qed.

Lemma deleteContainerFiles_all_batches_witness :
  let names := (replicate (Z.to_nat 8000) "a" ++ replicate (Z.to_nat 8000) "b"
                ++ ["c"])%list in
  let w := vfsswift.mkStore true names ["b"] 0 in
  let r := vfsswift.exec vfsswift.store
             (vfsswift.deleteContainerFiles [2; 0; 1]%nat [1; 2; 0]%nat "cozy" names) w in
  ∃ bs errs,
    vfsswift.batches names = Some bs ∧
    r.2.*1 ≡ₚ vfsswift.BulkDelete "cozy" <$> bs ∧
    errs ≡ₚ omap id r.2.*2 ∧
    r.1.1 = Some (match errs with [] => None | _ => Some (vfsswift.Multi errs) end) ∧
    (r.1.1 = Some None ↔ Forall (λ e, e.2 = None) r.2).
Proof.
  intros names w.
  apply (deleteContainerFiles_all_batches vfsswift.store w [2; 0; 1]%nat [1; 2; 0]%nat
           "cozy" names).
  - change (Z.to_nat (vfsswift.nb names)) with 3%nat.
    exact (Permutation_cons_append [0; 1]%nat 2%nat).
  - change (Z.to_nat (vfsswift.nb names)) with 3%nat.
    exact (Permutation_sym (Permutation_cons_append [1; 2]%nat 0%nat)).
Defined.

Example deleteContainerFiles_one_failure :
  let names := (replicate (Z.to_nat 8000) "a" ++ replicate (Z.to_nat 8000) "b"
                ++ ["c"])%list in
  let w := vfsswift.mkStore true ["a"; "b"; "c"] ["b"] 0 in
  let r := vfsswift.exec vfsswift.store
             (vfsswift.deleteContainerFiles [2; 0; 1]%nat [1; 2; 0]%nat "cozy" names) w in
  r.1.1 = Some (Some (vfsswift.Multi [vfsswift.Failure "bulk delete failed"])) ∧
  vfsswift.objects r.1.2 = ["b"] ∧
  length r.2 = 3%nat.
Proof. by vm_compute. Qed.

(** ** Deleting a container *)

(** X13. [DeleteContainer] stops at the first error of its two opening
    calls, for any object store and any retry helper: when [Container]
    answers [swift.ContainerNotFound] the result is nil, when it answers
    any other error the result is that error, and in both cases no other
    call is made; when [ObjectNamesAll] answers an error the result is that
    error, [swift.ContainerNotFound] included (it is not turned into nil
    there), and the two opening calls are the only ones.  Nothing is
    deleted and the retry helper is not run. *)
Theorem DeleteContainer_stops_on_error {W} (h : vfsswift.handler W) (w : W)
    (RetryWithExpBackoff : Z → time.Duration → vfsswift.prog (option vfsswift.swift_error)
                           → vfsswift.prog (option vfsswift.error))
    (sched recv : list nat) (container : string) (e : vfsswift.swift_error) :
  let a := h (vfsswift.Container container) w in
  let b := h (vfsswift.ObjectNamesAll container) a.2 in
  a.1 = Some e ∨ (a.1 = None ∧ b.1 = inr e) →
  let r := vfsswift.exec h
             (vfsswift.DeleteContainer RetryWithExpBackoff sched recv container) w in
  r.1.1 = Some (match a.1 with
                | Some vfsswift.ContainerNotFound => None
                | _ => Some (vfsswift.Single e)
                end) ∧
  r.1.2 = match a.1 with Some _ => a.2 | None => b.2 end ∧
  r.2 = (vfsswift.Container container, a.1)
        :: match a.1 with
           | Some _ => []
           | None => [(vfsswift.ObjectNamesAll container, Some e)]
           end.
Proof.
  intros a b H r. subst r a b. unfold vfsswift.DeleteContainer.
  cbn [vfsswift.exec].
  destruct (h (vfsswift.Container container) w) as [err w1]. cbn [fst snd] in *.
  destruct H as [->|[-> Hb]].
  - by destruct e.
  - cbn [vfsswift.exec].
    destruct (h (vfsswift.ObjectNamesAll container) w1) as [l w2].
    cbn [fst snd] in *. by subst l.
Qed.

Lemma DeleteContainer_stops_on_error_witness :
  let w := vfsswift.mkStore false [] [] 0 in
  let r := vfsswift.exec vfsswift.store
             (vfsswift.DeleteContainer vfsswift.RetryWithExpBackoff_calls [] [] "cozy") w in
  r.1.1 = Some None ∧ r.1.2 = w ∧
  r.2 = [(vfsswift.Container "cozy", Some vfsswift.ContainerNotFound)].
Proof.
  exact (DeleteContainer_stops_on_error vfsswift.store (vfsswift.mkStore false [] [] 0)
           vfsswift.RetryWithExpBackoff_calls [] [] "cozy" vfsswift.ContainerNotFound
           (or_introl eq_refl)).
Defined.

(** X14. Once the container is found and its objects listed,
    [DeleteContainer] bulk-deletes every batch of the listing exactly once
    (none for an empty listing), in the order the scheduler gives, and only
    then, and only when no bulk delete failed, hands the deletion of the
    container to the retry helper, called with 5 tries, a delay of two
    seconds and a function that treats [swift.ContainerNotFound] as
    success; the result and the last calls are then those of the helper.
    When a bulk delete failed the result is the multierror of the failures
    and the container is not deleted.  For any object store, any retry
    helper and any schedule. *)
Theorem DeleteContainer_deletes_then_retries {W} (h : vfsswift.handler W) (w w1 w2 : W)
    (RetryWithExpBackoff : Z → time.Duration → vfsswift.prog (option vfsswift.swift_error)
                           → vfsswift.prog (option vfsswift.error))
    (sched recv : list nat) (container : string) (objectNames : list string) :
  h (vfsswift.Container container) w = (None, w1) →
  h (vfsswift.ObjectNamesAll container) w1 = (inl objectNames, w2) →
  (objectNames ≠ [] → sched ≡ₚ seq 0 (Z.to_nat (vfsswift.nb objectNames))) →
  (objectNames ≠ [] → recv ≡ₚ seq 0 (Z.to_nat (vfsswift.nb objectNames))) →
  let r := vfsswift.exec h
             (vfsswift.DeleteContainer RetryWithExpBackoff sched recv container) w in
  ∃ bs cs errs,
    match objectNames with
    | [] => bs = []
    | _ => vfsswift.batches objectNames = Some bs
    end ∧
    cs ≡ₚ vfsswift.BulkDelete container <$> bs ∧
    errs ≡ₚ omap id (vfsswift.answers h cs w2).*2 ∧
    let pre := (vfsswift.Container container, None)
               :: (vfsswift.ObjectNamesAll container, None)
               :: vfsswift.answers h cs w2 in
    match errs with
    | [] =>
        let rr := vfsswift.exec h
                    (RetryWithExpBackoff 5 (2 * time.Second)
                       (vfsswift.delete_once container))
                    (vfsswift.after h cs w2) in
        r = (Some rr.1.1, rr.1.2, (pre ++ rr.2)%list)
    | _ => r = (Some (Some (vfsswift.Multi errs)), vfsswift.after h cs w2, pre)
    end.
Proof.
  intros Ha Hb Hsched Hrecv r. subst r. unfold vfsswift.DeleteContainer.
  cbn [vfsswift.exec]. rewrite Ha. cbn [vfsswift.exec]. rewrite Hb.
  set (retry := RetryWithExpBackoff 5 (2 * time.Second) (vfsswift.delete_once container)).
  destruct objectNames as [|o objectNames].
  - exists [], [], []. repeat (split; [done|]).
    cbn [length Nat.ltb Nat.leb vfsswift.after vfsswift.answers].
    rewrite swift_exec_pbind.
    destruct (vfsswift.exec h retry w2) as [[x w3] t]. simpl. by rewrite app_nil_r.
  - change (0 <? length (o :: objectNames))%nat with true. cbv iota.
    rewrite swift_exec_pbind.
    destruct (deleteContainerFiles_run h w2 sched recv container (o :: objectNames))
      as (bs & errs & Hbs & Hcalls & Herrs & Hres); [by apply Hsched|by apply Hrecv|].
    destruct (exec_answers h
                (vfsswift.deleteContainerFiles sched recv container (o :: objectNames)) w2)
      as [Ht Hw].
    destruct (vfsswift.exec h
                (vfsswift.deleteContainerFiles sched recv container (o :: objectNames)) w2)
      as [[res w3] t]. cbn [fst snd] in *. subst res.
    exists bs, t.*1, errs. rewrite <- Ht, <- Hw. repeat (split; [done|]).
    destruct errs as [|e errs].
    + rewrite swift_exec_pbind.
      destruct (vfsswift.exec h retry w3) as [[x w4] t']. simpl. by rewrite app_nil_r.
    + simpl. by rewrite app_nil_r.
Qed.

Lemma DeleteContainer_deletes_then_retries_witness :
  let names := (replicate (Z.to_nat 8000) "a" ++ replicate (Z.to_nat 8000) "b"
                ++ ["c"])%list in
  let w := vfsswift.mkStore true names [] 2 in
  let r := vfsswift.exec vfsswift.store
             (vfsswift.DeleteContainer vfsswift.RetryWithExpBackoff_calls
                [2; 0; 1]%nat [1; 2; 0]%nat "cozy") w in
  ∃ bs cs errs,
    vfsswift.batches names = Some bs ∧
    cs ≡ₚ vfsswift.BulkDelete "cozy" <$> bs ∧
    errs ≡ₚ omap id (vfsswift.answers vfsswift.store cs w).*2 ∧
    let pre := (vfsswift.Container "cozy", None)
               :: (vfsswift.ObjectNamesAll "cozy", None)
               :: vfsswift.answers vfsswift.store cs w in
    match errs with
    | [] =>
        let rr := vfsswift.exec vfsswift.store
                    (vfsswift.RetryWithExpBackoff_calls 5 (2 * time.Second)
                       (vfsswift.delete_once "cozy"))
                    (vfsswift.after vfsswift.store cs w) in
        r = (Some rr.1.1, rr.1.2, (pre ++ rr.2)%list)
    | _ => r = (Some (Some (vfsswift.Multi errs)), vfsswift.after vfsswift.store cs w, pre)
    end.
Proof.
  intros names w.
  refine (DeleteContainer_deletes_then_retries vfsswift.store w w w
            vfsswift.RetryWithExpBackoff_calls [2; 0; 1]%nat [1; 2; 0]%nat "cozy" names
            eq_refl eq_refl _ _).
  - intros _. change (Z.to_nat (vfsswift.nb names)) with 3%nat.
    exact (Permutation_cons_append [0; 1]%nat 2%nat).
  - intros _. change (Z.to_nat (vfsswift.nb names)) with 3%nat.
    exact (Permutation_sym (Permutation_cons_append [1; 2]%nat 0%nat)).
Defined.

Example DeleteContainer_third_try :
  let w := vfsswift.mkStore true ["a"; "b"; "c"] [] 2 in
  let r := vfsswift.exec vfsswift.store
             (vfsswift.DeleteContainer vfsswift.RetryWithExpBackoff_calls
                [0]%nat [0]%nat "cozy") w in
  r.1.1 = Some None ∧
  r.1.2 = vfsswift.mkStore false [] [] 0 ∧
  r.2 =
    [(vfsswift.Container "cozy", None);
     (vfsswift.ObjectNamesAll "cozy", None);
     (vfsswift.BulkDelete "cozy" ["a"; "b"; "c"], None);
     (vfsswift.ContainerDelete "cozy", Some (vfsswift.Failure "container not empty"));
     (vfsswift.ContainerDelete "cozy", Some (vfsswift.Failure "container not empty"));
     (vfsswift.ContainerDelete "cozy", None)].
Proof. by vm_compute. Qed.
